(** * ForensicsOverlay: block-level forensic analysis of one image

    A shallow embedding of [src/components/ForensicsOverlay.js]: the block
    grid, the four per-block detectors (local variance, JPEG grid
    artifacts, PRNU residual variance, error level analysis), min-max
    normalisation, equal-weight fusion, nearest-rank thresholding and the
    [fillRect] calls that highlight the suspicious blocks, together with
    the [denoise] dispatcher and the event handlers of the React effect.
    Line numbers in the comments are those of that file.

    Conventions of the embedding.
    - Integers of the program (image sizes, block size, loop counters,
      8-bit samples) are [Z].  JavaScript numbers that hold scores are
      exact rationals [Q]: rounding of IEEE doubles is not modelled.
    - [undefined], a thrown exception and [NaN] are the [None] of [option].
    - A [cv.Mat] is an 8-bit single-channel matrix (the component only
      builds [CV_8UC1] matrices from [cv.cvtColor(.., COLOR_RGBA2GRAY)]),
      given by its size and its samples.  The arithmetic of OpenCV on such
      matrices saturates to [0..255].
    - [delete()] calls, [matsToDelete] and [URL.revokeObjectURL] only
      release memory and are left out. *)

From Stdlib Require Import ZArith QArith Qround Qminmax Qabs Lqa Lia.
From Stdlib Require Import Sorting.Sorted Sorting.Permutation.
From stdpp Require Import base option list strings.

Local Open Scope Z_scope.

(** ** Loops *)

(** The values taken by [i] in [for (let i = start; i < stop; i += step)]. *)
Fixpoint for_loop (fuel : nat) (i stop step : Z) : list Z :=
  match fuel with
  | O => []
  | S fuel' => if i <? stop then i :: for_loop fuel' (i + step) stop step else []
  end.

Definition for_range (start stop step : Z) : list Z :=
  for_loop (Z.to_nat (stop - start)) start stop step.

(** Running a loop body that may throw over the values of the counter. *)
Fixpoint forM {A : Type} (l : list Z) (body : Z → A → option A) (a : A) : option A :=
  match l with
  | [] => Some a
  | i :: l' => a' ← body i a; forM l' body a'
  end.

(** ** Score maps: arrays of arrays of numbers *)

Abbreviation ScoreMap := (list (list Q)).

(** [Array.from({ length: byCount }, () => new Array(bxCount).fill(0))] *)
Definition Array_from_fill (byCount bxCount : Z) : ScoreMap :=
  replicate (Z.to_nat byCount) (replicate (Z.to_nat bxCount) 0%Q).

(** [m[by][bx] = v] on an existing row; a missing row is a [TypeError].
    The block loops only write inside the row (JavaScript would extend
    the row otherwise, [<[_:=_]>] leaves it as it is). *)
Definition assign (m : ScoreMap) (by_ bx : Z) (v : Q) : option ScoreMap :=
  row ← m !! Z.to_nat by_;
  Some (<[Z.to_nat by_ := <[Z.to_nat bx := v]> row]> m).

(** The two nested [for] loops over the blocks that every detector runs,
    storing [score by bx] in [map[by][bx]]. *)
Definition for_blocks (byCount bxCount : Z) (score : Z → Z → option Q)
    (map0 : ScoreMap) : option ScoreMap :=
  forM (for_range 0 byCount 1) (λ by_ m,
    forM (for_range 0 bxCount 1) (λ bx m',
      v ← score by_ bx; assign m' by_ bx v) m) map0.

(** The map whose entry [(by,bx)] is [f by bx]. *)
Definition tabulate (byCount bxCount : Z) (f : Z → Z → Q) : ScoreMap :=
  (λ by_, (λ bx, f by_ bx) <$> seqZ 0 bxCount) <$> seqZ 0 byCount.

(** [m] has [rows] rows of [cols] entries each. *)
Definition shape (rows cols : Z) (m : ScoreMap) : Prop :=
  Z.of_nat (length m) = rows ∧ Forall (λ r, Z.of_nat (length r) = cols) m.

(** [m[by][bx]] *)
Definition entry (m : ScoreMap) (by_ bx : Z) : option Q :=
  if (0 <=? by_) && (0 <=? bx) then row ← m !! Z.to_nat by_; row !! Z.to_nat bx
  else None.

(** ** The block grid *)

Definition Math_ceil (q : Q) : Z := Qceiling q.
Definition Math_floor (q : Q) : Z := Qfloor q.

(** [Math.ceil(h / blockSize)] and [Math.ceil(w / blockSize)] *)
Definition byCount (h blockSize : Z) : Z := Math_ceil (inject_Z h / inject_Z blockSize).
Definition bxCount (w blockSize : Z) : Z := Math_ceil (inject_Z w / inject_Z blockSize).

(** The clipped extent of a block along one axis:
    [Math.min(blockSize, h - y)] with [y = by * blockSize]. *)
Definition hBlk (h blockSize by_ : Z) : Z := Z.min blockSize (h - by_ * blockSize).
Definition wBlk (w blockSize bx : Z) : Z := Z.min blockSize (w - bx * blockSize).

(** The earlier variant of the component kept with the sources sizes its
    grid with [Math.floor(h / blockSize)] and [Math.floor(w / blockSize)]. *)
Definition blocksY (h blockSize : Z) : Z := Math_floor (inject_Z h / inject_Z blockSize).
Definition blocksX (w blockSize : Z) : Z := Math_floor (inject_Z w / inject_Z blockSize).

(** ** The OpenCV matrices the component uses *)

Record Mat := mkMat {
  rows : Z;
  cols : Z;
  px : Z → Z → Z    (* sample at row [i], column [j] *)
}.

Record Rect := mkRect { rx : Z; ry : Z; rwidth : Z; rheight : Z }.

(** [saturate_cast<uchar>] *)
Definition saturate (v : Z) : Z := Z.max 0 (Z.min 255 v).

(** [m.roi(rect)]: a view on a sub-rectangle; OpenCV throws unless the
    rectangle lies inside the matrix. *)
Definition roi (m : Mat) (r : Rect) : option Mat :=
  if (0 <=? rx r) && (0 <=? rwidth r) && (rx r + rwidth r <=? cols m)
     && (0 <=? ry r) && (0 <=? rheight r) && (ry r + rheight r <=? rows m)
  then Some (mkMat (rheight r) (rwidth r) (λ i j, px m (ry r + i) (rx r + j)))
  else None.

(** [m.col(j)] and [m.row(i)] *)
Definition col (m : Mat) (j : Z) : option Mat :=
  if (0 <=? j) && (j <? cols m) then Some (mkMat (rows m) 1 (λ i _, px m i j)) else None.

Definition row (m : Mat) (i : Z) : option Mat :=
  if (0 <=? i) && (i <? rows m) then Some (mkMat 1 (cols m) (λ _ j, px m i j)) else None.

(** Sum of [f] over [start, start + len). *)
Definition sumZ (f : Z → Z) (start len : Z) : Z :=
  foldr (λ i acc, f i + acc) 0 (seqZ start len).

(** Sum of all samples of a matrix. *)
Definition total (m : Mat) : Z :=
  sumZ (λ i, sumZ (λ j, px m i j) 0 (cols m)) 0 (rows m).

(** [cv.mean(m)[0]]: the mean of the samples; there is none for an empty
    matrix. *)
Definition cv_mean (m : Mat) : option Q :=
  if 0 <? rows m * cols m then Some (inject_Z (total m) / inject_Z (rows m * cols m))%Q
  else None.

Definition same_size (a b : Mat) : bool := (rows a =? rows b) && (cols a =? cols b).

(** [cv.multiply], [cv.subtract] and [cv.absdiff] as the component calls
    them, without a [dtype]: the output matrix takes the depth of the
    inputs, 8 bits unsigned here, and OpenCV stores
    [saturate_cast<uchar>] of every result.  Sizes must agree. *)
Definition elementwise (op : Z → Z → Z) (a b : Mat) : option Mat :=
  if same_size a b then Some (mkMat (rows a) (cols a) (λ i j, saturate (op (px a i j) (px b i j))))
  else None.

Definition cv_multiply : Mat → Mat → option Mat := elementwise Z.mul.
Definition cv_subtract : Mat → Mat → option Mat := elementwise Z.sub.
Definition cv_absdiff : Mat → Mat → option Mat := elementwise (λ a b, Z.abs (a - b)).

(** ** Detector 1: local variance (and detector 3 on the residual)

    The body of the block loops at lines 60-74, which lines 118-132 repeat
    on [residual] instead of [gray]. *)
Definition block_variance (src : Mat) (w h blockSize by_ bx : Z) : option Q :=
  let y := by_ * blockSize in
  let x := bx * blockSize in
  let hBlk := Z.min blockSize (h - y) in
  let wBlk := Z.min blockSize (w - x) in
  roi_ ← roi src (mkRect x y wBlk hBlk);
  mean ← cv_mean roi_;
  sq ← cv_multiply roi_ roi_;
  meanSq ← cv_mean sq;
  Some (meanSq - mean * mean)%Q.

Definition varMap (gray : Mat) (w h blockSize : Z) : option ScoreMap :=
  let byCount := byCount h blockSize in
  let bxCount := bxCount w blockSize in
  for_blocks byCount bxCount (block_variance gray w h blockSize)
    (Array_from_fill byCount bxCount).

(** ** Detector 2: JPEG grid artifacts *)

Definition gridSize : Z := 8.

(** [diffs.push(v)] *)
Definition push (diffs : list Q) (v : Q) : list Q := diffs ++ [v].

(** Lines 90-94: the difference across the vertical boundary on the
    right of the cell [blk] at [(x0, y0)]. *)
Definition vertical_boundary_diff (gray blk : Mat) (x0 y0 : Z) : option Q :=
  rightCol ← col blk (gridSize - 1);
  nextCol ← roi gray (mkRect (x0 + gridSize) y0 1 gridSize);
  tmp ← cv_absdiff rightCol nextCol;
  cv_mean tmp.

(** Lines 99-103: the difference across the horizontal boundary below it. *)
Definition horizontal_boundary_diff (gray blk : Mat) (x0 y0 : Z) : option Q :=
  bottomRow ← row blk (gridSize - 1);
  nextRow ← roi gray (mkRect x0 (y0 + gridSize) gridSize 1);
  tmp ← cv_absdiff bottomRow nextRow;
  cv_mean tmp.

(** The body of the two inner loops (lines 84-106) for one sub-cell. *)
Definition cell_diffs (gray : Mat) (w h blockSize by_ bx yOff xOff : Z)
    (diffs : list Q) : option (list Q) :=
  let y0 := by_ * blockSize + yOff in
  let x0 := bx * blockSize + xOff in
  if (y0 + gridSize >? h) || (x0 + gridSize >? w) then Some diffs
  else
    blk ← roi gray (mkRect x0 y0 gridSize gridSize);
    diffs ← (if x0 + gridSize <? w then
               d ← vertical_boundary_diff gray blk x0 y0; Some (push diffs d)
             else Some diffs);
    if y0 + gridSize <? h then
      d ← horizontal_boundary_diff gray blk x0 y0; Some (push diffs d)
    else Some diffs.

(** [diffs.reduce((a, b) => a + b, 0)] *)
Definition reduce_sum (diffs : list Q) : Q := fold_left Qplus diffs 0%Q.

(** [diffs.length ? diffs.reduce(..) / diffs.length : 0] *)
Definition mean_or_zero (diffs : list Q) : Q :=
  match diffs with
  | [] => 0%Q
  | _ => (reduce_sum diffs / inject_Z (Z.of_nat (length diffs)))%Q
  end.

Definition block_grid (gray : Mat) (w h blockSize by_ bx : Z) : option Q :=
  diffs ← forM (for_range 0 blockSize gridSize) (λ yOff ds,
             forM (for_range 0 blockSize gridSize) (λ xOff ds',
               cell_diffs gray w h blockSize by_ bx yOff xOff ds') ds) [];
  Some (mean_or_zero diffs).

Definition gridMap (gray : Mat) (w h blockSize : Z) : option ScoreMap :=
  let byCount := byCount h blockSize in
  let bxCount := bxCount w blockSize in
  for_blocks byCount bxCount (block_grid gray w h blockSize)
    (Array_from_fill byCount bxCount).

(** ** Detector 3: PRNU residual variance, and [denoise] *)

Inductive ConsoleMsg :=
  | console_log (s : string)
  | console_warn (s : string)
  | console_error (s : string).

Inductive BorderType := BORDER_CONSTANT | BORDER_REPLICATE | BORDER_DEFAULT.

Record Size := mkSize { swidth : Z; sheight : Z }.

(** The part of the [cv] object that [denoise] looks at.  The filters
    themselves belong to OpenCV; [fastNlMeansDenoising] is [None] when
    [typeof cv.fastNlMeansDenoising] is not ['function']. *)
Record OpenCV := mkOpenCV {
  fastNlMeansDenoising : option (Mat → Z → Z → Z → Mat);
  GaussianBlur : Mat → Size → Q → Q → BorderType → Mat
}.

(** [denoise(cv, gray)] with what it writes to the console. *)
Definition denoise (cv : OpenCV) (gray : Mat) : Mat * list ConsoleMsg :=
  match fastNlMeansDenoising cv with
  | Some nlm => (nlm gray 10 7 21, [])
  | None =>
      let ksize := mkSize 3 3 in
      (GaussianBlur cv gray ksize 0%Q 0%Q BORDER_DEFAULT,
       [console_warn "[ForensicsOverlay] fastNlMeansDenoising unavailable, using GaussianBlur"])
  end.

Definition prnuMap (residual : Mat) (w h blockSize : Z) : option ScoreMap :=
  let byCount := byCount h blockSize in
  let bxCount := bxCount w blockSize in
  for_blocks byCount bxCount (block_variance residual w h blockSize)
    (Array_from_fill byCount bxCount).

(** ** Detector 4: error level analysis *)

(** [a[i]] on an array: [undefined] outside of it. *)
Definition at_index {A : Type} (a : list A) (i : Z) : option A :=
  if 0 <=? i then a !! Z.to_nat i else None.

(** Lines 152-156 for one pixel offset [(yy, xx)] of a block; an
    [undefined] read would make [sum] a [NaN]. *)
Definition ela_pixel (origData newData : list Z) (w h blockSize by_ bx yy xx : Z)
    (sum : Z) : option Z :=
  let py := by_ * blockSize + yy in
  let px := bx * blockSize + xx in
  if (py >=? h) || (px >=? w) then Some sum
  else
    let idx := (py * w + px) * 4 in
    o ← at_index origData idx;
    n ← at_index newData idx;
    Some (sum + Z.abs (o - n)).

Definition block_ela (origData newData : list Z) (w h blockSize by_ bx : Z) : option Q :=
  sum ← forM (for_range 0 blockSize 1) (λ yy s,
           forM (for_range 0 blockSize 1) (λ xx s',
             ela_pixel origData newData w h blockSize by_ bx yy xx s') s) 0;
  Some (inject_Z sum / inject_Z (blockSize * blockSize))%Q.

Definition elaMap (origData newData : list Z) (w h blockSize : Z) : option ScoreMap :=
  let byCount := byCount h blockSize in
  let bxCount := bxCount w blockSize in
  for_blocks byCount bxCount (block_ela origData newData w h blockSize)
    (Array_from_fill byCount bxCount).

(** ** Normalisation and fusion *)

Definition eps : Q := 1 # 100000000.

(** [Math.min(v0, ...vs)] and [Math.max(v0, ...vs)] *)
Definition Math_min (v0 : Q) (vs : list Q) : Q := fold_left Qmin vs v0.
Definition Math_max (v0 : Q) (vs : list Q) : Q := fold_left Qmax vs v0.

(** The [normalize] helper.  On a map without any entry [Math.min()] and
    [Math.max()] are infinite, but the callback of [r.map] is never
    called: the map is returned as it is. *)
Definition normalize (mat : ScoreMap) : ScoreMap :=
  match concat mat with
  | [] => mat
  | v0 :: vs =>
      let min := Math_min v0 vs in
      let max := Math_max v0 vs in
      (λ r : list Q, (λ v, (v - min) / (max - min + eps))%Q <$> r) <$> mat
  end.

(** [.map(r => r.map(v => 1 - v))] *)
Definition invert (mat : ScoreMap) : ScoreMap :=
  (λ r : list Q, (λ v, 1 - v)%Q <$> r) <$> mat.

(** [l.map((x, i) => f(i, x))] with a callback that may fail, from index [i]. *)
Fixpoint imapM {A B : Type} (f : Z → A → option B) (i : Z) (l : list A) : option (list B) :=
  match l with
  | [] => Some []
  | x :: l' => y ← f i x; ys ← imapM f (i + 1) l'; Some (y :: ys)
  end.

(** Lines 175-177.  Reading a missing row throws, a missing entry gives
    [NaN]: both are [None]. *)
Definition composite (vN gN pN eN : ScoreMap) : option ScoreMap :=
  imapM (λ by_ row,
    imapM (λ bx v,
      g ← entry gN by_ bx;
      p ← entry pN by_ bx;
      e ← entry eN by_ bx;
      Some ((v + g + p + e) / 4)%Q) 0 row) 0 vN.

(** ** Threshold and highlight *)

(** [Array.prototype.sort(compareFn)], as a stable insertion sort: [x]
    goes before [y] when [compareFn(x, y) <= 0]. *)
Fixpoint insert_by (compareFn : Q → Q → Q) (x : Q) (l : list Q) : list Q :=
  match l with
  | [] => [x]
  | y :: l' => if Qle_bool (compareFn x y) 0 then x :: y :: l'
               else y :: insert_by compareFn x l'
  end.

Definition Array_sort (compareFn : Q → Q → Q) (l : list Q) : list Q :=
  foldr (insert_by compareFn) [] l.

(** [composite.flat().sort((a, b) => a - b)] *)
Definition flatC (composite : ScoreMap) : list Q :=
  Array_sort (λ a b, a - b)%Q (concat composite).

(** The index [Math.floor(flatC.length * thresholdPercent / 100)] *)
Definition thr_index (n : Z) (thresholdPercent : Q) : Z :=
  Math_floor (inject_Z n * thresholdPercent / 100).

(** [thr]: [undefined] when the index is outside [flatC]. *)
Definition thr (composite : ScoreMap) (thresholdPercent : Q) : option Q :=
  let flatC := flatC composite in
  at_index flatC (thr_index (Z.of_nat (length flatC)) thresholdPercent).

(** [score >= thr]: [false] against [undefined]. *)
Definition ge_thr (score : Q) (thr : option Q) : bool :=
  match thr with
  | Some t => Qle_bool t score
  | None => false
  end.

(** What is done to the 2D context of the canvas. *)
Inductive DrawCmd :=
  | drawImage (src : string)
  | fillStyle (style : string)
  | fillRect (x y w h : Z).

(** [l.forEach((x, i) => ..)] collecting the calls made, from index [i]. *)
Fixpoint forEach {A : Type} (f : A → Z → list DrawCmd) (i : Z) (l : list A) : list DrawCmd :=
  match l with
  | [] => []
  | x :: l' => f x i ++ forEach f (i + 1) l'
  end.

(** Lines 184-188. *)
Definition highlight (composite : ScoreMap) (thr : option Q) (blockSize : Z) : list DrawCmd :=
  forEach (λ row by_,
    forEach (λ score bx,
      if ge_thr score thr
      then [fillRect (bx * blockSize) (by_ * blockSize) blockSize blockSize]
      else []) 0 row) 0 composite.

(** ** The analysis of one image *)

(** What the browser hands over for an image: its size, the grey-level
    matrix OpenCV derives from the canvas, and the RGBA bytes of the
    canvas. *)
Record Frame := mkFrame {
  width : Z;
  height : Z;
  gray : Mat;
  origData : list Z
}.

(** The three maps computed before the recompression round trip
    (lines 54-132), with the console output: [denoise] is only reached
    when the first two detectors have not thrown. *)
Definition detect (cv : OpenCV) (f : Frame) (blockSize : Z)
    : option (ScoreMap * ScoreMap * ScoreMap) * list ConsoleMsg :=
  let w := width f in
  let h := height f in
  match (varMap ← varMap (gray f) w h blockSize;
         gridMap ← gridMap (gray f) w h blockSize;
         Some (varMap, gridMap)) with
  | None => (None, [])
  | Some (varMap, gridMap) =>
      let '(denoised, msgs) := denoise cv (gray f) in
      (residual ← cv_subtract (gray f) denoised;
       prnuMap ← prnuMap residual w h blockSize;
       Some (varMap, gridMap, prnuMap), msgs)
  end.

Record Overlay := mkOverlay {
  comp : ScoreMap;
  threshold : option Q;
  drawn : list DrawCmd
}.

(** Lines 171-188: fusion, threshold and drawing. *)
Definition fuse (src : string) (varMap gridMap prnuMap elaMap : ScoreMap)
    (blockSize : Z) (thresholdPercent : Q) : option Overlay :=
  let vN := invert (normalize varMap) in
  let gN := invert (normalize gridMap) in
  let pN := invert (normalize prnuMap) in
  let eN := normalize elaMap in
  composite ← composite vN gN pN eN;
  let thr := thr composite thresholdPercent in
  Some (mkOverlay composite thr
          ([drawImage src; fillStyle "rgba(255,0,0,0.4)"]
           ++ highlight composite thr blockSize)).

(** The callback of [img2.onload] (lines 144-192) for the three maps
    kept by the closure and the recompressed bytes [newData]. *)
Definition finish (src : string) (f : Frame) (maps : ScoreMap * ScoreMap * ScoreMap)
    (newData : list Z) (blockSize : Z) (thresholdPercent : Q) : option Overlay :=
  let '(varMap, gridMap, prnuMap) := maps in
  elaMap ← elaMap (origData f) newData (width f) (height f) blockSize;
  fuse src varMap gridMap prnuMap elaMap blockSize thresholdPercent.

(** The whole analysis, from the loaded image to the overlay. *)
Definition analysis (cv : OpenCV) (src : string) (f : Frame) (newData : list Z)
    (blockSize : Z) (thresholdPercent : Q) : option Overlay * list ConsoleMsg :=
  let '(maps, msgs) := detect cv f blockSize in
  (maps ← maps; finish src f maps newData blockSize thresholdPercent, msgs).

(** ** The effect and its callbacks

    The component as a state machine of the browser's event loop: a
    render with new props runs the effect, which starts [runAnalysis]
    ([cv] being ready); the two callbacks [img.onload] and [img2.onload]
    of every run stay registered until their event arrives.  All runs
    share the one canvas of [canvasRef] and the one [loading] state. *)

Record Props := mkProps {
  src : string;
  blockSize : Z;
  thresholdPercent : Q
}.

(** A callback registered by a run of the effect and not called yet, with
    what its closure holds. *)
Inductive Pending :=
  | img_onload (p : Props)
  | img2_onload (p : Props) (f : Frame) (maps : list (list Q) * list (list Q) * list (list Q)).

Record Component := mkComponent {
  props : Props;             (* the props of the last render *)
  canvas_size : Z * Z;
  canvas : list DrawCmd;     (* drawn since the canvas was last resized *)
  loading : bool;
  console : list ConsoleMsg;
  pending : list Pending
}.

Inductive Event :=
  | render (p : Props)                          (* the props changed *)
  | image_loaded (i : nat) (f : Frame)          (* [img] of callback [i] was decoded *)
  | image_failed (i : nat)                      (* [img.onerror] *)
  | recompressed (i : nat) (newData : list Z).  (* [img2] of callback [i] was decoded *)

(** The state after mounting, before the first effect has run. *)
Definition mounted (p : Props) : Component :=
  mkComponent p (0, 0) [] true [] [].

Definition step (cv : OpenCV) (c : Component) (ev : Event) : Component :=
  match ev with
  | render p =>
      mkComponent p (canvas_size c) (canvas c) (loading c)
        (console c ++ [console_log "[ForensicsOverlay] OpenCV ready"])
        (pending c ++ [img_onload p])
  | image_loaded i f =>
      match pending c !! i with
      | Some (img_onload p) =>
          let '(maps, msgs) := detect cv f (blockSize p) in
          mkComponent (props c) (width f, height f) [drawImage (src p)] (loading c)
            (console c ++ msgs)
            match maps with
            | Some maps => <[i := img2_onload p f maps]> (pending c)
            | None => delete i (pending c)
            end
      | _ => c
      end
  | image_failed i =>
      match pending c !! i with
      | Some (img_onload p) =>
          mkComponent (props c) (canvas_size c) (canvas c) (loading c)
            (console c ++ [console_error "[ForensicsOverlay] Image load error"])
            (delete i (pending c))
      | _ => c
      end
  | recompressed i newData =>
      match pending c !! i with
      | Some (img2_onload p f maps) =>
          match finish (src p) f maps newData (blockSize p) (thresholdPercent p) with
          | Some o =>
              mkComponent (props c) (canvas_size c) (canvas c ++ drawn o) false
                (console c) (delete i (pending c))
          | None =>
              mkComponent (props c) (canvas_size c) (canvas c) (loading c)
                (console c) (delete i (pending c))
          end
      | _ => c
      end
  end.

Definition run (cv : OpenCV) (c : Component) (evs : list Event) : Component :=
  fold_left (step cv) evs c.

(** ** Reference definitions for the detectors, pixel by pixel *)

(** An image of [w] by [h] samples, each an 8-bit value. *)
Definition has_size (m : Mat) (w h : Z) : Prop := rows m = h ∧ cols m = w.
Definition is_u8 (m : Mat) : Prop := ∀ i j, 0 ≤ px m i j ≤ 255.

(** Sum of [f] over the samples of the rectangle at column [x], row [y],
    [wB] wide and [hB] high. *)
Definition region_sum (f : Z → Z) (m : Mat) (x y wB hB : Z) : Z :=
  sumZ (λ i, sumZ (λ j, f (px m i j)) x wB) y hB.

(** Mean of [f] over the rectangle, then [E[g] - E[f]^2]. *)
Definition region_mean (f : Z → Z) (m : Mat) (x y wB hB : Z) : Q :=
  (inject_Z (region_sum f m x y wB hB) / inject_Z (hB * wB))%Q.

(** Population variance of the samples of the rectangle: mean of the
    squares minus square of the mean. *)
Definition population_variance (m : Mat) (x y wB hB : Z) : Q :=
  let meanSq := region_mean (λ v, v * v) m x y wB hB in
  let mean := region_mean (λ v, v) m x y wB hB in
  (meanSq - mean * mean)%Q.

(** The same with every square saturated to 8 bits. *)
Definition saturated_variance (m : Mat) (x y wB hB : Z) : Q :=
  let meanSq := region_mean (λ v, saturate (v * v)) m x y wB hB in
  let mean := region_mean (λ v, v) m x y wB hB in
  (meanSq - mean * mean)%Q.

(** Mean absolute difference across the right edge of the 8-pixel cell
    at [(x0, y0)]: column [x0 + 7] against column [x0 + 8]. *)
Definition right_edge (g : Mat) (x0 y0 : Z) : Q :=
  let sum := sumZ (λ i, Z.abs (px g i (x0 + 7) - px g i (x0 + 8))) y0 8 in
  (inject_Z sum / inject_Z 8)%Q.

(** Across its bottom edge: row [y0 + 7] against row [y0 + 8]. *)
Definition bottom_edge (g : Mat) (x0 y0 : Z) : Q :=
  let sum := sumZ (λ j, Z.abs (px g (y0 + 7) j - px g (y0 + 8) j)) x0 8 in
  (inject_Z sum / inject_Z 8)%Q.

(** The boundaries counted for the cell at [(x0, y0)]: none unless the
    cell lies inside the image, then its right edge when a column follows
    it and its bottom edge when a row follows it. *)
Definition cell_edges (g : Mat) (w h x0 y0 : Z) : list Q :=
  if (y0 + 8 <=? h) && (x0 + 8 <=? w) then
    (if x0 + 8 <? w then [right_edge g x0 y0] else [])
    ++ (if y0 + 8 <? h then [bottom_edge g x0 y0] else [])
  else [].

(** The boundaries of a block: those of its cells at the offsets
    [0, 8, 16, ..] below [blockSize], row by row. *)
Definition block_edges (g : Mat) (w h blockSize by_ bx : Z) : list Q :=
  yOff ← (λ k, 8 * k) <$> seqZ 0 ((blockSize + 7) / 8);
  xOff ← (λ k, 8 * k) <$> seqZ 0 ((blockSize + 7) / 8);
  cell_edges g w h (bx * blockSize + xOff) (by_ * blockSize + yOff).

Definition Qsum (l : list Q) : Q := foldr Qplus 0%Q l.



(** The red byte of pixel [(px, py)] in RGBA data of an image [w] wide. *)
Definition red (data : list Z) (w py px_ : Z) : Z :=
  default 0 (at_index data ((py * w + px_) * 4)).

(** Sum of the absolute red differences over a rectangle. *)
Definition red_difference (o n : list Z) (w x y wB hB : Z) : Z :=
  sumZ (λ py, sumZ (λ px_, Z.abs (red o w py px_ - red n w py px_)) x wB) y hB.

Definition ela_score (o n : list Z) (w h blockSize by_ bx : Z) : Q :=
  let sum := red_difference o n w (bx * blockSize) (by_ * blockSize)
               (wBlk w blockSize bx) (hBlk h blockSize by_) in
  (inject_Z sum / inject_Z (blockSize * blockSize))%Q.

(** ** Vocabulary of the properties *)

(** [v] is a least (greatest) value of the map. *)
Definition least (m : ScoreMap) (v : Q) : Prop :=
  v ∈ concat m ∧ ∀ u, u ∈ concat m → (v <= u)%Q.
Definition greatest (m : ScoreMap) (v : Q) : Prop :=
  v ∈ concat m ∧ ∀ u, u ∈ concat m → (u <= v)%Q.

(** [n] is the min-max normalisation of the value [v] of the map [raw]:
    [(v - min) / (max - min + 1e-8)]. *)
Definition min_max_normalized (raw : ScoreMap) (v n : Q) : Prop :=
  ∃ mn mx, least raw mn ∧ greatest raw mx ∧ (n == (v - mn) / (mx - mn + eps))%Q.

(** Block [(by, bx)] is highlighted: its rectangle was filled. *)
Definition marked (drawn : list DrawCmd) (blockSize by_ bx : Z) : Prop :=
  fillRect (bx * blockSize) (by_ * blockSize) blockSize blockSize ∈ drawn.

(** [(by, bx)] is a block of the grid of a [w] by [h] image. *)
Definition in_grid (w h blockSize by_ bx : Z) : Prop :=
  0 ≤ by_ < byCount h blockSize ∧ 0 ≤ bx < bxCount w blockSize.

(** Every entry of the map is (equal as a number to) [k]. *)
Definition constant_map (m : ScoreMap) (k : Q) : Prop :=
  ∀ v, v ∈ concat m → (v == k)%Q.

(** A frame as the browser and OpenCV produce it: a grey-level matrix of
    the size of the image with 8-bit samples, and 4 bytes per pixel. *)
Definition well_formed (f : Frame) : Prop :=
  0 ≤ width f ∧ 0 ≤ height f
  ∧ has_size (gray f) (width f) (height f) ∧ is_u8 (gray f)
  ∧ Z.of_nat (length (origData f)) = 4 * width f * height f.

(** All samples inside the matrix are [c]. *)
Definition uniform (m : Mat) (c : Z) : Prop :=
  ∀ i j, 0 ≤ i < rows m → 0 ≤ j < cols m → px m i j = c.

(** The composite values of the example of the specification, as one row
    of ten blocks. *)
Definition ten_values : ScoreMap :=
  [[1 # 10; 2 # 10; 3 # 10; 4 # 10; 5 # 10; 6 # 10; 7 # 10; 8 # 10; 9 # 10; 1]%Q].

(** Sample inputs: a grey ramp, a uniform matrix, and RGBA bytes whose
    red byte is [red px py]. *)
Definition ramp (w h : Z) : Mat := mkMat h w (λ i j, saturate (3 * i + 10 * j)).

Definition flat_mat (w h c : Z) : Mat := mkMat h w (λ _ _, c).

Definition rgba (w h : Z) (red : Z → Z → Z) : list Z :=
  py ← seqZ 0 h; px_ ← seqZ 0 w; [red px_ py; 0; 0; 255].

(** A stand-in for a build of OpenCV.js without the photo module: no
    [fastNlMeansDenoising], and a 3 by 3 blur with the kernel
    [1 2 1; 2 4 2; 1 2 1] / 16, borders reflected, rounded to nearest. *)
Definition reflect101 (n i : Z) : Z :=
  if n <=? 1 then 0
  else if i <? 0 then - i
  else if n <=? i then 2 * n - 2 - i
  else i.

Definition gaussian3 (m : Mat) : Mat :=
  mkMat (rows m) (cols m) (λ i j,
    let s := λ di dj, px m (reflect101 (rows m) (i + di)) (reflect101 (cols m) (j + dj)) in
    (s (-1) (-1) + 2 * s (-1) 0 + s (-1) 1
     + 2 * s 0 (-1) + 4 * s 0 0 + 2 * s 0 1
     + s 1 (-1) + 2 * s 1 0 + s 1 1 + 8) / 16).

Definition opencv_js : OpenCV := mkOpenCV None (λ m _ _ _ _, gaussian3 m).

(** A frame of uniform grey level [c] whose pixels are all [(c, 0, 0, 255)]. *)
Definition flat_frame (w h c : Z) : Frame :=
  mkFrame w h (flat_mat w h c) (rgba w h (λ _ _, c)).

(** The property that the result of a round trip whose run is no longer
    the current one is dropped: whenever the callback [img2.onload] of a
    run with another [src] than the current props is called, in a state
    reached from mounting, the canvas and [loading] stay as they are. *)
Definition stale_results_discarded (cv : OpenCV) : Prop :=
  ∀ p0 evs i p f maps newData,
    let c := run cv (mounted p0) evs in
    pending c !! i = Some (img2_onload p f maps) →
    src p ≠ src (props c) →
    canvas (step cv c (recompressed i newData)) = canvas c
    ∧ loading (step cv c (recompressed i newData)) = loading c.

(** Two sources and the trace in which the second replaces the first
    while the round trip of the first is outstanding. *)
Definition props_a : Props := mkProps "a.jpg" 32 80.
Definition props_b : Props := mkProps "b.jpg" 32 80.

Definition replaced_in_flight : list Event :=
  [render props_a; image_loaded 0 (flat_frame 1 1 10); render props_b].

(** The behaviour stated for uniform images: for every frame of uniform
    grey level (whose denoised copy is the same uniform image), every
    recompressed buffer and every percentage in [0, 100], the variance,
    grid and residual maps are all zero, normalise to 0 and invert to 1,
    the composite map is constant, the threshold is that constant, and
    every block of the grid is highlighted. *)
Definition uniform_image_claim : Prop :=
  ∀ (cv : OpenCV) (src : string) (f : Frame) (c : Z) (newData : list Z)
    (blockSize : Z) (p : Q),
    well_formed f → 1 ≤ width f → 1 ≤ height f → uniform (gray f) c →
    has_size (denoise cv (gray f)).1 (width f) (height f) →
    uniform (denoise cv (gray f)).1 c →
    Z.of_nat (length newData) = 4 * width f * height f →
    0 < blockSize → (0 <= p <= 100)%Q →
    ∃ vm gm pm o k,
      (detect cv f blockSize).1 = Some (vm, gm, pm)
      ∧ constant_map vm 0 ∧ constant_map gm 0 ∧ constant_map pm 0
      ∧ constant_map (normalize vm) 0 ∧ constant_map (normalize gm) 0
      ∧ constant_map (normalize pm) 0
      ∧ constant_map (invert (normalize vm)) 1 ∧ constant_map (invert (normalize gm)) 1
      ∧ constant_map (invert (normalize pm)) 1
      ∧ (analysis cv src f newData blockSize p).1 = Some o
      ∧ constant_map (comp o) k
      ∧ (∃ t, threshold o = Some t ∧ (t == k)%Q)
      ∧ ∀ by_ bx, in_grid (width f) (height f) blockSize by_ bx →
          marked (drawn o) blockSize by_ bx.

(** ** Further vocabulary *)



(** ** The earlier variant of the component: detectors on full blocks

    Its block loops run over the [blocksY] by [blocksX] grid and read
    every block at its full size, without clipping. *)

(** The body of its variance loops: [gray.roi(new cv.Rect(bx*blockSize,
    by*blockSize, blockSize, blockSize))], then as above. *)
Definition block_variance_floor (src : Mat) (blockSize by_ bx : Z) : option Q :=
  roi_ ← roi src (mkRect (bx * blockSize) (by_ * blockSize) blockSize blockSize);
  mean ← cv_mean roi_;
  sq ← cv_multiply roi_ roi_;
  meanSq ← cv_mean sq;
  Some (meanSq - mean * mean)%Q.

Definition varMap_floor (gray : Mat) (w h blockSize : Z) : option ScoreMap :=
  let blocksY := blocksY h blockSize in
  let blocksX := blocksX w blockSize in
  for_blocks blocksY blocksX (block_variance_floor gray blockSize)
    (Array_from_fill blocksY blocksX).

(** The body of its ELA loops for one pixel offset: no test against the
    image size before the two reads. *)
Definition ela_pixel_floor (d1 d2 : list Z) (w blockSize by_ bx y x : Z) (sum : Z)
    : option Z :=
  let idx := ((by_ * blockSize + y) * w + (bx * blockSize + x)) * 4 in
  o ← at_index d1 idx;
  n ← at_index d2 idx;
  Some (sum + Z.abs (o - n)).

Definition block_ela_floor (d1 d2 : list Z) (w blockSize by_ bx : Z) : option Q :=
  sum ← forM (for_range 0 blockSize 1) (λ y s,
           forM (for_range 0 blockSize 1) (λ x s',
             ela_pixel_floor d1 d2 w blockSize by_ bx y x s') s) 0;
  Some (inject_Z sum / inject_Z (blockSize * blockSize))%Q.

Definition elaMap_floor (d1 d2 : list Z) (w h blockSize : Z) : option ScoreMap :=
  let blocksY := blocksY h blockSize in
  let blocksX := blocksX w blockSize in
  for_blocks blocksY blocksX (block_ela_floor d1 d2 w blockSize)
    (Array_from_fill blocksY blocksX).

(** ** Waiting for the OpenCV runtime (lines 199-205)

    The effect starts [runAnalysis] at once when [cv.Mat] is there, and
    otherwise stores it in [cv.onRuntimeInitialized], the one callback
    that OpenCV calls when its runtime is ready.  The global [cv] object
    is taken to exist. *)

Inductive Runtime :=
  | initialising (onRuntimeInitialized : option Props)
  | ready.

Record Boot := mkBoot {
  runtime : Runtime;
  started : list Props;          (* the calls of [runAnalysis], by their props *)
  boot_console : list ConsoleMsg
}.

Inductive BootEvent :=
  | effect (p : Props)           (* the effect runs for the props [p] *)
  | runtime_initialized.         (* OpenCV has finished initialising *)

Definition boot_step (b : Boot) (ev : BootEvent) : Boot :=
  match ev, runtime b with
  | effect p, ready =>
      mkBoot ready (started b ++ [p])
        (boot_console b ++ [console_log "[ForensicsOverlay] OpenCV ready"])
  | effect p, initialising _ =>
      mkBoot (initialising (Some p)) (started b)
        (boot_console b ++ [console_log "[ForensicsOverlay] Waiting for OpenCV"])
  | runtime_initialized, initialising (Some p) =>
      mkBoot ready (started b ++ [p]) (boot_console b)
  | runtime_initialized, initialising None => mkBoot ready (started b) (boot_console b)
  | runtime_initialized, ready => b
  end.

Definition boot_run (b : Boot) (evs : list BootEvent) : Boot :=
  fold_left boot_step evs b.

(** ** The earlier variant: polling for OpenCV

    One run of its effect: [init] returns [false] while [window.cv] is
    missing, and the effect then calls it again every 100 ms until it
    returns [true]; [init] starts [run] when [cv.Mat] is there and stores
    it in [cv.onRuntimeInitialized] otherwise. *)

Inductive Script :=
  | script_missing                              (* [window.cv] is undefined *)
  | script_initialising (callback : bool)       (* [cv] without [Mat]; is [run] stored? *)
  | script_ready.

Record Poller := mkPoller {
  script : Script;
  polling : bool;            (* is the interval of [setInterval] running? *)
  runs : nat;                (* how many times [run] was called *)
  poll_console : list ConsoleMsg
}.

Inductive PollEvent :=
  | tick                     (* 100 ms have passed *)
  | script_executed          (* the OpenCV script has defined [window.cv] *)
  | script_runtime_initialized
  | cleanup.                 (* the effect is cleaned up: [clearInterval(id)] *)

(** [init()]: the state after the call and its result. *)
Definition init (s : Poller) : Poller * bool :=
  match script s with
  | script_missing =>
      (mkPoller (script s) (polling s) (runs s)
         (poll_console s ++ [console_warn "[ForensicsOverlay] OpenCV not loaded yet"]),
       false)
  | script_ready =>
      (mkPoller (script s) (polling s) (S (runs s))
         (poll_console s ++ [console_log "[ForensicsOverlay] OpenCV ready";
                             console_log "[ForensicsOverlay] Starting analysis"]),
       true)
  | script_initialising _ =>
      (mkPoller (script_initialising true) (polling s) (runs s)
         (poll_console s ++ [console_log "[ForensicsOverlay] Waiting for OpenCV runtime"]),
       true)
  end.

(** The body of the effect after its first log line. *)
Definition poll_effect (s : Poller) : Poller :=
  let '(s', ok) := init s in
  if ok then s'
  else mkPoller (script s') true (runs s')
         (poll_console s' ++ [console_log "[ForensicsOverlay] OpenCV not ready, retrying..."]).

Definition poll_step (s : Poller) (ev : PollEvent) : Poller :=
  match ev with
  | tick =>
      if polling s then
        let '(s', ok) := init s in
        if ok then mkPoller (script s') false (runs s') (poll_console s') else s'
      else s
  | script_executed =>
      match script s with
      | script_missing =>
          mkPoller (script_initialising false) (polling s) (runs s) (poll_console s)
      | _ => s
      end
  | script_runtime_initialized =>
      match script s with
      | script_initialising callback =>
          mkPoller script_ready (polling s)
            (if callback then S (runs s) else runs s)
            (if callback
             then poll_console s ++ [console_log "[ForensicsOverlay] Starting analysis"]
             else poll_console s)
      | _ => s
      end
  | cleanup => mkPoller (script s) false (runs s) (poll_console s)
  end.

Definition poll_run (s : Poller) (evs : list PollEvent) : Poller :=
  fold_left poll_step evs s.

(** The state in which the effect runs: no interval, nothing started. *)
Definition before_effect (sc : Script) : Poller := mkPoller sc false O [].

(** What holds of the poller in every state reached, cleaned up or not:
    [run] is never started while the script is not ready, nor while the
    interval is still running, and never twice. *)
Definition poll_safe (s : Poller) : Prop :=
  match script s with
  | script_missing => runs s = O
  | script_initialising callback => runs s = O ∧ (callback = true → polling s = false)
  | script_ready => if polling s then runs s = O else (runs s ≤ 1)%nat
  end.

(** What holds as long as the effect is not cleaned up: the interval runs
    until [init] has succeeded, and once it has stopped with the script
    ready, [run] has been started. *)
Definition poll_live (s : Poller) : Prop :=
  match script s with
  | script_missing => runs s = O ∧ polling s = true
  | script_initialising callback => runs s = O ∧ polling s = negb callback
  | script_ready => if polling s then runs s = O else runs s = 1%nat
  end.

(** * Properties *)

(** Replace a boolean comparison that the context decides by its value. *)
Ltac leb_true a b := replace (a <=? b) with true by (symmetry; apply Z.leb_le; lia).
Ltac leb_false a b := replace (a <=? b) with false by (symmetry; apply Z.leb_gt; lia).

(** ** Loops *)

Lemma for_loop_step (step : Z) (fuel : nat) (i stop : Z) :
  0 < step → stop - i ≤ Z.of_nat fuel →
  for_loop fuel i stop step
  = (λ k, i + step * k) <$> seqZ 0 ((stop - i + step - 1) / step).
Proof.
  intros Hstep. revert i. induction fuel as [|fuel IH]; intros i Hfuel; simpl.
  - rewrite seqZ_nil; [done|].
    apply Z.lt_succ_r. apply Z.div_lt_upper_bound; lia.
  - destruct (Z.ltb_spec i stop) as [Hlt|Hge].
    + rewrite IH by lia.
      assert (Hdiv : (stop - i + step - 1) / step
                     = Z.succ ((stop - (i + step) + step - 1) / step)).
      { replace (stop - i + step - 1) with ((stop - (i + step) + step - 1) + 1 * step) by lia.
        rewrite Z.div_add by lia. lia. }
      rewrite Hdiv.
      assert (Hnn : 0 ≤ (stop - (i + step) + step - 1) / step).
      { apply Z.div_pos; lia. }
      generalize dependent ((stop - (i + step) + step - 1) / step). intros q _ Hnn.
      rewrite (seqZ_cons 0 (Z.succ q)) by lia. rewrite Z.pred_succ. cbn [fmap list_fmap].
      f_equal; [f_equal; lia|].
      replace (Z.succ 0) with (1 + 0) by lia.
      rewrite <- (fmap_add_seqZ 1 0 q), <- list_fmap_compose.
      apply list_fmap_ext. intros _ k _. simpl. lia.
    + rewrite seqZ_nil; [done|].
      apply Z.lt_succ_r. apply Z.div_lt_upper_bound; lia.
Qed.

Lemma for_range_unit (n : Z) : for_range 0 n 1 = seqZ 0 n.
Proof.
  unfold for_range. rewrite for_loop_step by lia.
  replace ((n - 0 + 1 - 1) / 1) with n by (rewrite Z.div_1_r; lia).
  rewrite <- (list_fmap_id (seqZ 0 n)) at 2.
  apply list_fmap_ext. intros _ k _. simpl. lia.
Qed.

Lemma for_range_grid (n : Z) :
  for_range 0 n gridSize = (λ k, 8 * k) <$> seqZ 0 ((n + 7) / 8).
Proof.
  unfold for_range, gridSize. rewrite for_loop_step by lia.
  replace (n - 0 + 8 - 1) with (n + 7) by lia.
  apply list_fmap_ext. intros _ k _. lia.
Qed.

(** A loop whose body never throws while an invariant holds runs to its
    end and establishes the invariant for the whole range. *)
Lemma forM_invariant {A : Type} (I : nat → A → Prop) (l : list Z)
    (body : Z → A → option A) (a : A) :
  I O a →
  (∀ k i a, l !! k = Some i → I k a → ∃ a', body i a = Some a' ∧ I (S k) a') →
  ∃ a', forM l body a = Some a' ∧ I (length l) a'.
Proof.
  revert I a. induction l as [|i l IH]; intros I a H0 Hstep; simpl.
  - eauto.
  - destruct (Hstep O i a eq_refl H0) as (a1 & -> & H1). simpl.
    apply (IH (λ k, I (S k))); [done|].
    intros k j b Hk Hb. apply (Hstep (S k) j b); done.
Qed.

(** ** The block loops fill the map entry by entry *)

Lemma for_blocks_row (A B : list (list Q)) (by_ : Z) (C : nat)
    (score : Z → Z → option Q) (f : Z → Z → Q) :
  Z.of_nat (length A) = by_ →
  (∀ bx, 0 ≤ bx < Z.of_nat C → score by_ bx = Some (f by_ bx)) →
  forM (seqZ 0 (Z.of_nat C)) (λ bx m', v ← score by_ bx; assign m' by_ bx v)
       (A ++ replicate C 0%Q :: B)
  = Some (A ++ (f by_ <$> seqZ 0 (Z.of_nat C)) :: B).
Proof.
  intros HA Hscore.
  destruct (forM_invariant
    (λ k m, (k ≤ C)%nat ∧
            m = A ++ ((f by_ <$> seqZ 0 (Z.of_nat k)) ++ replicate (C - k) 0%Q) :: B)
    (seqZ 0 (Z.of_nat C)) (λ bx m', v ← score by_ bx; assign m' by_ bx v)
    (A ++ replicate C 0%Q :: B)) as (m & Hm & _ & ->).
  - split; [lia|]. simpl. by rewrite Nat.sub_0_r.
  - intros k bx m Hk [Hle ->].
    apply lookup_seqZ in Hk as [-> Hlt]. rewrite Z.add_0_l.
    rewrite Hscore by lia. simpl. unfold assign.
    assert (Hby : Z.to_nat by_ = length A) by lia.
    rewrite Hby, list_lookup_middle by done. simpl.
    eexists; split; [done|]. split; [lia|].
    rewrite insert_app_r_alt by lia. rewrite Nat.sub_diag. simpl.
    f_equal. f_equal.
    rewrite insert_app_r_alt by (rewrite length_fmap, length_seqZ; lia).
    rewrite length_fmap, length_seqZ, Nat2Z.id, Nat.sub_diag.
    destruct (C - k)%nat as [|n] eqn:Hn; [lia|].
    replace (C - S k)%nat with n by lia. simpl.
    rewrite seqZ_S, fmap_app. simpl.
    by rewrite <- app_assoc.
  - rewrite Hm. rewrite length_seqZ, Nat2Z.id, Nat.sub_diag. simpl.
    by rewrite app_nil_r.
Qed.

Lemma tabulate_S (k : nat) (cols : Z) (f : Z → Z → Q) :
  tabulate (Z.of_nat (S k)) cols f
  = tabulate (Z.of_nat k) cols f ++ [f (Z.of_nat k) <$> seqZ 0 cols].
Proof.
  unfold tabulate. by rewrite seqZ_S, fmap_app.
Qed.

Lemma length_tabulate (rows cols : Z) (f : Z → Z → Q) :
  length (tabulate rows cols f) = Z.to_nat rows.
Proof. unfold tabulate. by rewrite length_fmap, length_seqZ. Qed.

(** If the score of every block of the grid is defined, the loops return
    the map of these scores. *)
Lemma for_blocks_tabulate (rows cols : Z) (score : Z → Z → option Q) (f : Z → Z → Q) :
  0 ≤ rows → 0 ≤ cols →
  (∀ by_ bx, 0 ≤ by_ < rows → 0 ≤ bx < cols → score by_ bx = Some (f by_ bx)) →
  for_blocks rows cols score (Array_from_fill rows cols) = Some (tabulate rows cols f).
Proof.
  intros Hr Hc Hscore. unfold for_blocks, Array_from_fill.
  rewrite !for_range_unit.
  set (R := Z.to_nat rows). set (C := Z.to_nat cols).
  replace rows with (Z.of_nat R) in * by lia.
  replace cols with (Z.of_nat C) in * by lia.
  destruct (forM_invariant
    (λ k m, (k ≤ R)%nat ∧
            m = tabulate (Z.of_nat k) (Z.of_nat C) f ++ replicate (R - k) (replicate C 0%Q))
    (seqZ 0 (Z.of_nat R))
    (λ by_ m, forM (seqZ 0 (Z.of_nat C))
                (λ bx m', v ← score by_ bx; assign m' by_ bx v) m)
    (replicate R (replicate C 0%Q))) as (m & Hm & _ & ->).
  - split; [lia|]. simpl. by rewrite Nat.sub_0_r.
  - intros k by_ m Hk [Hle ->].
    apply lookup_seqZ in Hk as [-> Hlt]. rewrite Z.add_0_l.
    destruct (R - k)%nat as [|n] eqn:Hn; [lia|]. simpl.
    rewrite (for_blocks_row _ _ _ _ score f).
    + eexists; split; [done|]. split; [lia|].
      rewrite tabulate_S, <- app_assoc. simpl.
      by replace (R - S k)%nat with n by lia.
    + rewrite length_tabulate. lia.
    + intros bx Hbx. apply Hscore; lia.
  - rewrite Hm. rewrite length_seqZ, Nat2Z.id, Nat.sub_diag. simpl.
    by rewrite app_nil_r.
Qed.

Lemma entry_tabulate (rows cols : Z) (f : Z → Z → Q) (by_ bx : Z) :
  0 ≤ by_ < rows → 0 ≤ bx < cols →
  entry (tabulate rows cols f) by_ bx = Some (f by_ bx).
Proof.
  intros Hby Hbx. unfold entry, tabulate.
  leb_true 0 by_.
  leb_true 0 bx. simpl.
  rewrite list_lookup_fmap, lookup_seqZ_lt by lia. simpl.
  rewrite list_lookup_fmap, lookup_seqZ_lt by lia. simpl.
  do 2 f_equal; lia.
Qed.

Lemma entry_Some_range (rows cols : Z) (m : ScoreMap) (by_ bx : Z) (v : Q) :
  shape rows cols m → entry m by_ bx = Some v → 0 ≤ by_ < rows ∧ 0 ≤ bx < cols.
Proof.
  intros [Hlen Hall]. unfold entry.
  destruct (Z.leb_spec 0 by_), (Z.leb_spec 0 bx); simpl; try done.
  destruct (m !! Z.to_nat by_) as [r|] eqn:Hr; simpl; [|done].
  intros Hv. apply lookup_lt_Some in Hv.
  pose proof (lookup_lt_Some _ _ _ Hr).
  rewrite Forall_forall in Hall.
  specialize (Hall r (list_elem_of_lookup_2 _ _ _ Hr)). simpl in Hall. lia.
Qed.

Lemma shape_tabulate (rows cols : Z) (f : Z → Z → Q) :
  0 ≤ rows → 0 ≤ cols → shape rows cols (tabulate rows cols f).
Proof.
  intros Hr Hc. split.
  - rewrite length_tabulate. lia.
  - unfold tabulate. apply Forall_fmap, Forall_forall. intros by_ _. simpl.
    rewrite length_fmap, length_seqZ. lia.
Qed.

(** ** The block grid *)

Lemma inject_Z_nonzero (b : Z) : b ≠ 0 → ¬ (inject_Z b == 0)%Q.
Proof. intros Hb. unfold Qeq. simpl. lia. Qed.

Lemma Math_ceil_div (a b : Z) :
  0 < b → Math_ceil (inject_Z a / inject_Z b) = - ((- a) / b).
Proof.
  intros Hb. unfold Math_ceil, Qceiling. rewrite Zdiv_Qdiv. f_equal.
  apply Qfloor_comp. rewrite inject_Z_opp. field. apply inject_Z_nonzero. lia.
Qed.

Lemma Math_floor_div (a b : Z) : Math_floor (inject_Z a / inject_Z b) = a / b.
Proof. unfold Math_floor. by rewrite Zdiv_Qdiv. Qed.

(** [Math.ceil(a / b)] is the least [n] with [a <= n * b]. *)
Lemma Math_ceil_spec (a b : Z) :
  0 < b →
  (Math_ceil (inject_Z a / inject_Z b) - 1) * b < a
  ∧ a ≤ Math_ceil (inject_Z a / inject_Z b) * b.
Proof.
  intros Hb. rewrite Math_ceil_div by done.
  pose proof (Z.div_mod (- a) b ltac:(lia)) as Hdm.
  pose proof (Z.mod_pos_bound (- a) b Hb) as Hmod.
  generalize dependent ((- a) / b). generalize dependent ((- a) mod b).
  intros r Hr q Hq. nia.
Qed.

Lemma byCount_nonneg (h blockSize : Z) : 0 < blockSize → 0 ≤ h → 0 ≤ byCount h blockSize.
Proof.
  intros Hb Hh. unfold byCount.
  destruct (Math_ceil_spec h blockSize Hb) as [Hlo Hhi].
  generalize dependent (Math_ceil (inject_Z h / inject_Z blockSize)). intros n Hlo Hhi. nia.
Qed.

(** The clipped extent of every block of the grid is at least one pixel,
    at most [blockSize], and ends inside the image. *)
Lemma block_extent (h blockSize by_ : Z) :
  0 < blockSize → 0 ≤ by_ < byCount h blockSize →
  let y := by_ * blockSize in
  0 ≤ y ∧ 1 ≤ hBlk h blockSize by_ ≤ blockSize ∧ y + hBlk h blockSize by_ ≤ h
  ∧ (hBlk h blockSize by_ < blockSize → y + hBlk h blockSize by_ = h).
Proof.
  intros Hb Hby. unfold hBlk, byCount in *.
  destruct (Math_ceil_spec h blockSize Hb) as [Hlo Hhi].
  generalize dependent (Math_ceil (inject_Z h / inject_Z blockSize)). intros n Hby Hlo Hhi.
  simpl. assert (by_ * blockSize + blockSize ≤ (n - 1) * blockSize + blockSize) by nia.
  assert (0 ≤ by_ * blockSize) by nia. lia.
Qed.

(** Every pixel row lies in the clipped extent of exactly one block row. *)
Lemma blocks_cover (h blockSize py : Z) :
  0 < blockSize → 0 ≤ py < h →
  ∃ by_, 0 ≤ by_ < byCount h blockSize
         ∧ by_ * blockSize ≤ py < by_ * blockSize + hBlk h blockSize by_
         ∧ ∀ b', 0 ≤ b' < byCount h blockSize →
                 b' * blockSize ≤ py < b' * blockSize + hBlk h blockSize b' → b' = by_.
Proof.
  intros Hb Hpy. exists (py / blockSize).
  pose proof (Z.div_mod py blockSize ltac:(lia)) as Hdm.
  pose proof (Z.mod_pos_bound py blockSize Hb) as Hmod.
  assert (Hq : 0 ≤ py / blockSize) by (apply Z.div_pos; lia).
  unfold hBlk, byCount.
  destruct (Math_ceil_spec h blockSize Hb) as [Hlo Hhi].
  generalize dependent (Math_ceil (inject_Z h / inject_Z blockSize)). intros n Hlo Hhi.
  generalize dependent (py / blockSize). generalize dependent (py mod blockSize).
  intros r Hr q Hq Hq0. repeat split; nia.
Qed.

(** The floor-sized grid of the earlier variant stops short of the image
    whenever the block size does not divide its height: the trailing
    partial row of blocks is missing. *)
Lemma floor_grid_drops_partial_blocks (h blockSize : Z) :
  0 < blockSize → 0 ≤ h →
  blocksY h blockSize * blockSize ≤ h
  ∧ (h mod blockSize ≠ 0 →
       blocksY h blockSize * blockSize < h ∧ byCount h blockSize = blocksY h blockSize + 1)
  ∧ blocksY 50 32 = 1 ∧ blocksX 100 32 = 3.
Proof.
  intros Hb Hh. unfold blocksY, blocksX, byCount. rewrite !Math_floor_div.
  destruct (Math_ceil_spec h blockSize Hb) as [Hlo Hhi].
  generalize dependent (Math_ceil (inject_Z h / inject_Z blockSize)). intros n Hlo Hhi.
  pose proof (Z.div_mod h blockSize ltac:(lia)) as Hdm.
  pose proof (Z.mod_pos_bound h blockSize Hb) as Hmod.
  generalize dependent (h / blockSize). generalize dependent (h mod blockSize).
  intros r Hr q Hq. repeat split; try nia; by vm_compute.
Qed.

(** ** Sums over ranges *)

Lemma sumZ_nil (f : Z → Z) (s n : Z) : n ≤ 0 → sumZ f s n = 0.
Proof. intros Hn. unfold sumZ. by rewrite seqZ_nil. Qed.

Lemma sumZ_cons (f : Z → Z) (s n : Z) :
  0 < n → sumZ f s n = f s + sumZ f (s + 1) (n - 1).
Proof. intros Hn. unfold sumZ. by rewrite seqZ_cons. Qed.

Lemma sumZ_ext (f g : Z → Z) (s n : Z) :
  (∀ i, s ≤ i < s + n → f i = g i) → sumZ f s n = sumZ g s n.
Proof.
  intros Hfg. unfold sumZ.
  assert (Hall : Forall (λ i, f i = g i) (seqZ s n)).
  { apply Forall_forall. intros i Hi. apply elem_of_seqZ in Hi. by apply Hfg. }
  induction Hall as [|i l Hi _ IH]; simpl; [done|]. by rewrite Hi, IH.
Qed.

Lemma sumZ_shift (f : Z → Z) (k n : Z) : sumZ (λ i, f (k + i)) 0 n = sumZ f k n.
Proof.
  unfold sumZ. replace (seqZ k n) with (seqZ (k + 0) n) by (f_equal; lia).
  rewrite <- (fmap_add_seqZ k 0 n). by rewrite foldr_fmap.
Qed.

Lemma sumZ_const (c s n : Z) : 0 ≤ n → sumZ (λ _, c) s n = c * n.
Proof.
  intros Hn. unfold sumZ.
  replace n with (Z.of_nat (Z.to_nat n)) by lia. generalize (Z.to_nat n) as k.
  clear. intros k. revert s. induction k as [|k IH]; intros s.
  - rewrite seqZ_nil by lia. simpl. lia.
  - rewrite seqZ_cons by lia. simpl foldr.
    replace (Z.pred (Z.of_nat (S k))) with (Z.of_nat k) by lia.
    rewrite IH. lia.
Qed.

(** A guarded sum over [0, n) is the sum over the part where the guard holds. *)
Lemma sumZ_clip (f : Z → Z) (s n k : Z) :
  0 ≤ k ≤ n →
  sumZ (λ i, if s + k <=? i then 0 else f i) s n = sumZ f s k.
Proof.
  intros Hk. replace n with (Z.of_nat (Z.to_nat n)) in * by lia.
  generalize dependent (Z.to_nat n). intros m. revert s k.
  induction m as [|m IH]; intros s k Hk.
  - assert (k = 0) as -> by lia. by rewrite !sumZ_nil by lia.
  - rewrite sumZ_cons by lia.
    destruct (Z.eq_dec k 0) as [->|Hk0].
    + rewrite (sumZ_nil f) by lia.
      leb_true (s + 0) s.
      rewrite (sumZ_ext _ (λ _, 0)).
      * rewrite sumZ_const by lia. lia.
      * intros i Hi. leb_true (s + 0) i. done.
    + rewrite (sumZ_cons f s k) by lia.
      leb_false (s + k) s.
      f_equal. replace (Z.of_nat (S m) - 1) with (Z.of_nat m) by lia.
      rewrite <- (IH (s + 1) (k - 1)) by lia.
      apply sumZ_ext. intros i _. by replace (s + 1 + (k - 1)) with (s + k) by lia.
Qed.

Lemma total_roi (m : Mat) (x y wB hB : Z) :
  total (mkMat hB wB (λ i j, px m (y + i) (x + j))) = region_sum (λ v, v) m x y wB hB.
Proof.
  unfold total, region_sum. simpl.
  rewrite <- (sumZ_shift (λ i, sumZ (λ j, px m i j) x wB)).
  apply sumZ_ext. intros i _. by rewrite <- (sumZ_shift (λ j, px m (y + i) j)).
Qed.

Lemma region_sum_ext (f g : Z → Z) (m : Mat) (x y wB hB : Z) :
  (∀ i j, y ≤ i < y + hB → x ≤ j < x + wB → f (px m i j) = g (px m i j)) →
  region_sum f m x y wB hB = region_sum g m x y wB hB.
Proof.
  intros Hfg. unfold region_sum. apply sumZ_ext. intros i Hi.
  apply sumZ_ext. intros j Hj. by apply Hfg.
Qed.

(** ** Detector 1 and 3: what the block loops compute *)

Lemma roi_inside (m : Mat) (x y wB hB : Z) :
  0 ≤ x → 0 ≤ wB → x + wB ≤ cols m → 0 ≤ y → 0 ≤ hB → y + hB ≤ rows m →
  roi m (mkRect x y wB hB) = Some (mkMat hB wB (λ i j, px m (y + i) (x + j))).
Proof.
  intros. unfold roi. simpl.
  repeat match goal with
  | |- context [?a <=? ?b] => leb_true a b
  end. done.
Qed.

(** On every block of the grid of a [w] by [h] matrix, the region is
    inside the matrix, no OpenCV call throws, and the score is the mean of
    the saturated squares minus the squared mean over the clipped block. *)
Lemma block_variance_inside (src : Mat) (w h blockSize by_ bx : Z) :
  has_size src w h → 0 < blockSize →
  0 ≤ by_ < byCount h blockSize → 0 ≤ bx < bxCount w blockSize →
  block_variance src w h blockSize by_ bx
  = Some (saturated_variance src (bx * blockSize) (by_ * blockSize)
            (wBlk w blockSize bx) (hBlk h blockSize by_)).
Proof.
  intros [Hrows Hcols] Hb Hby Hbx.
  destruct (block_extent h blockSize by_ Hb Hby) as (Hy & HhB & Hyh & _).
  destruct (block_extent w blockSize bx Hb Hbx) as (Hx & HwB & Hxw & _).
  unfold block_variance. fold (hBlk h blockSize by_). fold (wBlk w blockSize bx).
  unfold hBlk in *. unfold wBlk.
  set (hB := Z.min blockSize (h - by_ * blockSize)) in *.
  set (wB := Z.min blockSize (w - bx * blockSize)) in *.
  rewrite roi_inside by lia. simpl.
  unfold cv_mean at 1. simpl.
  replace (0 <? hB * wB) with true by (symmetry; apply Z.ltb_lt; nia). simpl.
  unfold cv_multiply, elementwise, same_size. simpl. rewrite !Z.eqb_refl. simpl.
  unfold cv_mean. simpl.
  replace (0 <? hB * wB) with true by (symmetry; apply Z.ltb_lt; nia). simpl.
  unfold saturated_variance, region_mean. rewrite total_roi.
  do 4 f_equal. unfold total, region_sum. simpl.
  rewrite <- (sumZ_shift (λ i, sumZ (λ j, saturate (px src i j * px src i j))
                                 (bx * blockSize) wB)).
  apply sumZ_ext. intros i _.
  by rewrite <- (sumZ_shift (λ j, saturate (px src (by_ * blockSize + i) j
                                            * px src (by_ * blockSize + i) j))).
Qed.

(** Squares of samples up to 15 fit in 8 bits: there the score is the
    population variance. *)
Lemma saturated_variance_dark (m : Mat) (x y wB hB : Z) :
  (∀ i j, y ≤ i < y + hB → x ≤ j < x + wB → 0 ≤ px m i j ≤ 15) →
  saturated_variance m x y wB hB = population_variance m x y wB hB.
Proof.
  intros Hdark. unfold saturated_variance, population_variance, region_mean.
  rewrite (region_sum_ext (λ v, saturate (v * v)) (λ v, v * v)); [done|].
  intros i j Hi Hj. specialize (Hdark i j Hi Hj). unfold saturate. nia.
Qed.

Lemma varMap_tabulate (src : Mat) (w h blockSize : Z) :
  has_size src w h → 0 < blockSize → 0 ≤ w → 0 ≤ h →
  varMap src w h blockSize
  = Some (tabulate (byCount h blockSize) (bxCount w blockSize)
            (λ by_ bx, saturated_variance src (bx * blockSize) (by_ * blockSize)
                         (wBlk w blockSize bx) (hBlk h blockSize by_))).
Proof.
  intros Hsize Hb Hw Hh. unfold varMap.
  apply for_blocks_tabulate.
  - by apply byCount_nonneg.
  - by apply byCount_nonneg.
  - intros by_ bx Hby Hbx. by apply block_variance_inside.
Qed.

(** ** Detector 2: what the cell loops compute *)

Lemma forM_collect {B : Type} (l : list Z) (g : Z → list B)
    (body : Z → list B → option (list B)) (d0 : list B) :
  (∀ i ds, i ∈ l → body i ds = Some (ds ++ g i)) →
  forM l body d0 = Some (d0 ++ (i ← l; g i)).
Proof.
  revert d0. induction l as [|i l IH]; intros d0 Hbody; simpl.
  - by rewrite app_nil_r.
  - rewrite Hbody by left. simpl.
    rewrite IH by (intros; apply Hbody; by right).
    by rewrite <- app_assoc.
Qed.

Lemma sumZ_one (f : Z → Z) (s : Z) : sumZ f s 1 = f s.
Proof. rewrite sumZ_cons, sumZ_nil by lia. lia. Qed.

Lemma saturate_u8 (v : Z) : 0 ≤ v ≤ 255 → saturate v = v.
Proof. unfold saturate. lia. Qed.

Lemma absdiff_u8 (a b : Z) : 0 ≤ a ≤ 255 → 0 ≤ b ≤ 255 → saturate (Z.abs (a - b)) = Z.abs (a - b).
Proof. intros. apply saturate_u8. lia. Qed.

Lemma vertical_boundary_right_edge (gray : Mat) (w h x0 y0 : Z) :
  has_size gray w h → is_u8 gray →
  0 ≤ x0 → 0 ≤ y0 → x0 + 8 < w → y0 + 8 ≤ h →
  vertical_boundary_diff gray (mkMat 8 8 (λ i j, px gray (y0 + i) (x0 + j))) x0 y0
  = Some (right_edge gray x0 y0).
Proof.
  intros [Hrows Hcols] Hu8 Hx0 Hy0 Hx Hy.
  unfold vertical_boundary_diff, gridSize, col. simpl.
  rewrite roi_inside by lia. simpl.
  unfold right_edge, cv_mean. simpl. f_equal.
  apply (f_equal (λ s, (inject_Z s / inject_Z 8)%Q)). unfold total. simpl.
  rewrite <- (sumZ_shift (λ i, Z.abs (px gray i (x0 + 7) - px gray i (x0 + 8)))).
  apply sumZ_ext. intros i _. rewrite sumZ_one, absdiff_u8 by apply Hu8.
  by rewrite Z.add_0_r.
Qed.

Lemma horizontal_boundary_bottom_edge (gray : Mat) (w h x0 y0 : Z) :
  has_size gray w h → is_u8 gray →
  0 ≤ x0 → 0 ≤ y0 → x0 + 8 ≤ w → y0 + 8 < h →
  horizontal_boundary_diff gray (mkMat 8 8 (λ i j, px gray (y0 + i) (x0 + j))) x0 y0
  = Some (bottom_edge gray x0 y0).
Proof.
  intros [Hrows Hcols] Hu8 Hx0 Hy0 Hx Hy.
  unfold horizontal_boundary_diff, gridSize, row. simpl.
  rewrite roi_inside by lia. simpl.
  unfold bottom_edge, cv_mean. simpl. f_equal.
  apply (f_equal (λ s, (inject_Z s / inject_Z 8)%Q)). unfold total. simpl.
  rewrite sumZ_one.
  rewrite <- (sumZ_shift (λ j, Z.abs (px gray (y0 + 7) j - px gray (y0 + 8) j))).
  apply sumZ_ext. intros j _. rewrite absdiff_u8 by apply Hu8.
  by rewrite Z.add_0_r.
Qed.

Lemma cell_diffs_edges (gray : Mat) (w h blockSize by_ bx yOff xOff : Z) (diffs : list Q) :
  has_size gray w h → is_u8 gray →
  0 ≤ by_ * blockSize + yOff → 0 ≤ bx * blockSize + xOff →
  cell_diffs gray w h blockSize by_ bx yOff xOff diffs
  = Some (diffs ++ cell_edges gray w h (bx * blockSize + xOff) (by_ * blockSize + yOff)).
Proof.
  intros Hsize Hu8 Hy0 Hx0. unfold cell_diffs, cell_edges.
  set (y0 := by_ * blockSize + yOff) in *. set (x0 := bx * blockSize + xOff) in *.
  rewrite !Z.gtb_ltb. unfold gridSize at 1 2 3 4 5 6.
  destruct (Z.ltb_spec h (y0 + 8)) as [Hyh|Hyh]; simpl.
  { leb_false (y0 + 8) h.
    simpl. by rewrite app_nil_r. }
  leb_true (y0 + 8) h.
  destruct (Z.ltb_spec w (x0 + 8)) as [Hxw|Hxw]; simpl.
  { leb_false (x0 + 8) w.
    by rewrite app_nil_r. }
  leb_true (x0 + 8) w.
  destruct Hsize as [Hrows Hcols].
  rewrite (roi_inside gray x0 y0 8 8) by lia. cbn [mbind option_bind].
  destruct (Z.ltb_spec (x0 + 8) w) as [Hx|Hx];
    destruct (Z.ltb_spec (y0 + 8) h) as [Hy|Hy].
  - rewrite (vertical_boundary_right_edge gray w h) by (done || lia).
    cbn [mbind option_bind].
    rewrite (horizontal_boundary_bottom_edge gray w h) by (done || lia).
    cbn [mbind option_bind]. unfold push. by rewrite <- app_assoc.
  - rewrite (vertical_boundary_right_edge gray w h) by (done || lia).
    cbn [mbind option_bind]. unfold push. by rewrite app_nil_r.
  - cbn [mbind option_bind].
    rewrite (horizontal_boundary_bottom_edge gray w h) by (done || lia).
    cbn [mbind option_bind]. done.
  - cbn [mbind option_bind]. by rewrite app_nil_r.
Qed.

Lemma block_grid_edges (gray : Mat) (w h blockSize by_ bx : Z) :
  has_size gray w h → is_u8 gray → 0 < blockSize → 0 ≤ by_ → 0 ≤ bx →
  block_grid gray w h blockSize by_ bx
  = Some (mean_or_zero (block_edges gray w h blockSize by_ bx)).
Proof.
  intros Hsize Hu8 Hb Hby Hbx. unfold block_grid. rewrite for_range_grid.
  assert (Hoff : ∀ off, off ∈ (λ k, 8 * k) <$> seqZ 0 ((blockSize + 7) / 8) → 0 ≤ off).
  { intros off Hoff. apply list_elem_of_fmap in Hoff as (k & -> & Hk).
    apply elem_of_seqZ in Hk. lia. }
  rewrite (forM_collect _ (λ yOff,
             xOff ← (λ k, 8 * k) <$> seqZ 0 ((blockSize + 7) / 8);
             cell_edges gray w h (bx * blockSize + xOff) (by_ * blockSize + yOff))).
  - done.
  - intros yOff ds HyOff.
    apply (forM_collect _ (λ xOff,
             cell_edges gray w h (bx * blockSize + xOff) (by_ * blockSize + yOff))).
    intros xOff ds' HxOff. apply cell_diffs_edges; try done.
    + specialize (Hoff _ HyOff). nia.
    + specialize (Hoff _ HxOff). nia.
Qed.

Lemma fold_left_Qplus (l : list Q) (a : Q) : (fold_left Qplus l a == a + Qsum l)%Q.
Proof.
  revert a. induction l as [|x l IH]; intros a; simpl.
  - ring.
  - rewrite IH. ring.
Qed.

Lemma reduce_sum_Qsum (l : list Q) : (reduce_sum l == Qsum l)%Q.
Proof. unfold reduce_sum. rewrite fold_left_Qplus. ring. Qed.


Lemma gridMap_tabulate (gray : Mat) (w h blockSize : Z) :
  has_size gray w h → is_u8 gray → 0 < blockSize → 0 ≤ w → 0 ≤ h →
  gridMap gray w h blockSize
  = Some (tabulate (byCount h blockSize) (bxCount w blockSize)
            (λ by_ bx, mean_or_zero (block_edges gray w h blockSize by_ bx))).
Proof.
  intros Hsize Hu8 Hb Hw Hh. unfold gridMap.
  apply for_blocks_tabulate.
  - by apply byCount_nonneg.
  - by apply byCount_nonneg.
  - intros by_ bx Hby Hbx. apply block_grid_edges; try done; lia.
Qed.

(** ** Detector 4: what the pixel loops compute *)

Lemma forM_sum (l : list Z) (g : Z → Z) (body : Z → Z → option Z) (s0 : Z) :
  (∀ i s, i ∈ l → body i s = Some (s + g i)) →
  forM l body s0 = Some (s0 + foldr (λ i acc, g i + acc) 0 l).
Proof.
  revert s0. induction l as [|i l IH]; intros s0 Hbody; simpl.
  - f_equal. lia.
  - rewrite Hbody by left. simpl.
    rewrite IH by (intros; apply Hbody; by right). f_equal. lia.
Qed.

Lemma at_index_red (data : list Z) (w h py px_ : Z) :
  Z.of_nat (length data) = 4 * w * h → 0 ≤ py < h → 0 ≤ px_ < w →
  at_index data ((py * w + px_) * 4) = Some (red data w py px_).
Proof.
  intros Hlen Hpy Hpx. unfold red, at_index.
  replace (0 <=? (py * w + px_) * 4) with true by (symmetry; apply Z.leb_le; nia).
  destruct (data !! Z.to_nat ((py * w + px_) * 4)) as [v|] eqn:Hv; [done|].
  apply lookup_ge_None in Hv. nia.
Qed.

Lemma block_ela_score (origData newData : list Z) (w h blockSize by_ bx : Z) :
  Z.of_nat (length origData) = 4 * w * h →
  Z.of_nat (length newData) = 4 * w * h →
  0 < blockSize → 0 ≤ by_ < byCount h blockSize → 0 ≤ bx < bxCount w blockSize →
  block_ela origData newData w h blockSize by_ bx
  = Some (ela_score origData newData w h blockSize by_ bx).
Proof.
  intros Ho Hn Hb Hby Hbx.
  destruct (block_extent h blockSize by_ Hb Hby) as (Hy & HhB & Hyh & _).
  destruct (block_extent w blockSize bx Hb Hbx) as (Hx & HwB & Hxw & _).
  unfold block_ela, ela_score. rewrite !for_range_unit.
  set (d := λ py px_, Z.abs (red origData w py px_ - red newData w py px_)).
  set (clip := λ yy xx, if (by_ * blockSize + yy >=? h) || (bx * blockSize + xx >=? w)
                        then 0 else d (by_ * blockSize + yy) (bx * blockSize + xx)).
  rewrite (forM_sum _ (λ yy, sumZ (clip yy) 0 blockSize)).
  2:{ intros yy s Hyy.
      apply (forM_sum _ (clip yy)).
      intros xx s' Hxx. apply elem_of_seqZ in Hyy, Hxx.
      unfold ela_pixel, clip. rewrite !Z.geb_leb.
      destruct (Z.leb_spec h (by_ * blockSize + yy)) as [?|Hpy]; simpl.
      { f_equal. lia. }
      destruct (Z.leb_spec w (bx * blockSize + xx)) as [?|Hpx]; simpl.
      { f_equal. lia. }
      rewrite (at_index_red origData w h), (at_index_red newData w h) by (done || lia).
      done. }
  simpl. f_equal.
  apply (f_equal (λ s, (inject_Z s / inject_Z (blockSize * blockSize))%Q)).
  rewrite Z.add_0_l.
  fold (sumZ (λ yy, sumZ (clip yy) 0 blockSize) 0 blockSize).
  unfold red_difference. fold d. unfold hBlk, wBlk in *.
  set (hB := Z.min blockSize (h - by_ * blockSize)) in *.
  set (wB := Z.min blockSize (w - bx * blockSize)) in *.
  rewrite <- (sumZ_shift (λ py, sumZ (λ px_, d py px_) (bx * blockSize) wB)).
  rewrite <- (sumZ_clip _ 0 blockSize hB) by lia.
  apply sumZ_ext. intros yy Hyy. rewrite Z.add_0_l.
  destruct (Z.leb_spec hB yy) as [Hout|Hin].
  - rewrite (sumZ_ext _ (λ _, 0)); [rewrite sumZ_const; lia|].
    intros xx _. unfold clip. rewrite Z.geb_leb.
    by leb_true h (by_ * blockSize + yy).
  - rewrite <- (sumZ_shift (λ px_, d (by_ * blockSize + yy) px_)).
    rewrite <- (sumZ_clip _ 0 blockSize wB) by lia.
    apply sumZ_ext. intros xx Hxx. rewrite Z.add_0_l. unfold clip. rewrite !Z.geb_leb.
    leb_false h (by_ * blockSize + yy).
    simpl. destruct (Z.leb_spec wB xx), (Z.leb_spec w (bx * blockSize + xx)); (done || lia).
Qed.

Lemma elaMap_tabulate (origData newData : list Z) (w h blockSize : Z) :
  Z.of_nat (length origData) = 4 * w * h →
  Z.of_nat (length newData) = 4 * w * h →
  0 < blockSize → 0 ≤ w → 0 ≤ h →
  elaMap origData newData w h blockSize
  = Some (tabulate (byCount h blockSize) (bxCount w blockSize)
            (ela_score origData newData w h blockSize)).
Proof.
  intros Ho Hn Hb Hw Hh. unfold elaMap.
  apply for_blocks_tabulate.
  - by apply byCount_nonneg.
  - by apply byCount_nonneg.
  - intros by_ bx Hby Hbx. by apply block_ela_score.
Qed.

(** ** Normalisation *)

Lemma Qmin_cases (a b : Q) : (Qmin a b = a ∧ (a <= b)%Q) ∨ (Qmin a b = b ∧ (b <= a)%Q).
Proof.
  unfold Qmin, GenericMinMax.gmin.
  destruct (a ?= b)%Q eqn:Hc.
  - left. split; [done|]. apply Qeq_alt in Hc. rewrite Hc. apply Qle_refl.
  - left. split; [done|]. apply Qlt_alt in Hc. by apply Qlt_le_weak.
  - right. split; [done|]. apply Qgt_alt in Hc. by apply Qlt_le_weak.
Qed.

Lemma Qmax_cases (a b : Q) : (Qmax a b = a ∧ (b <= a)%Q) ∨ (Qmax a b = b ∧ (a <= b)%Q).
Proof.
  unfold Qmax, GenericMinMax.gmax.
  destruct (a ?= b)%Q eqn:Hc.
  - left. split; [done|]. apply Qeq_alt in Hc. rewrite Hc. apply Qle_refl.
  - right. split; [done|]. apply Qlt_alt in Hc. by apply Qlt_le_weak.
  - left. split; [done|]. apply Qgt_alt in Hc. by apply Qlt_le_weak.
Qed.

Lemma Math_min_spec (v0 : Q) (vs : list Q) :
  Math_min v0 vs ∈ v0 :: vs ∧ ∀ u, u ∈ v0 :: vs → (Math_min v0 vs <= u)%Q.
Proof.
  unfold Math_min. revert v0. induction vs as [|x vs IH]; intros v0; simpl.
  - split; [left|]. intros u Hu. apply list_elem_of_singleton in Hu as ->. apply Qle_refl.
  - destruct (IH (Qmin v0 x)) as [Hin Hle]. split.
    + apply elem_of_cons in Hin as [Heq|Hin]; [|by do 2 right].
      rewrite Heq. destruct (Qmin_cases v0 x) as [[-> _]|[-> _]]; [left|right; left].
    + intros u Hu.
      assert (Hm : (fold_left Qmin vs (Qmin v0 x) <= Qmin v0 x)%Q) by (apply Hle; left).
      apply elem_of_cons in Hu as [->|Hu].
      * eapply Qle_trans; [exact Hm|]. destruct (Qmin_cases v0 x) as [[-> ?]|[-> ?]]; [apply Qle_refl|done].
      * apply elem_of_cons in Hu as [->|Hu]; [|apply Hle; by right].
        eapply Qle_trans; [exact Hm|]. destruct (Qmin_cases v0 x) as [[-> ?]|[-> ?]]; [done|apply Qle_refl].
Qed.

Lemma Math_max_spec (v0 : Q) (vs : list Q) :
  Math_max v0 vs ∈ v0 :: vs ∧ ∀ u, u ∈ v0 :: vs → (u <= Math_max v0 vs)%Q.
Proof.
  unfold Math_max. revert v0. induction vs as [|x vs IH]; intros v0; simpl.
  - split; [left|]. intros u Hu. apply list_elem_of_singleton in Hu as ->. apply Qle_refl.
  - destruct (IH (Qmax v0 x)) as [Hin Hle]. split.
    + apply elem_of_cons in Hin as [Heq|Hin]; [|by do 2 right].
      rewrite Heq. destruct (Qmax_cases v0 x) as [[-> _]|[-> _]]; [left|right; left].
    + intros u Hu.
      assert (Hm : (Qmax v0 x <= fold_left Qmax vs (Qmax v0 x))%Q) by (apply Hle; left).
      apply elem_of_cons in Hu as [->|Hu].
      * eapply Qle_trans; [|exact Hm]. destruct (Qmax_cases v0 x) as [[-> ?]|[-> ?]]; [apply Qle_refl|done].
      * apply elem_of_cons in Hu as [->|Hu]; [|apply Hle; by right].
        eapply Qle_trans; [|exact Hm]. destruct (Qmax_cases v0 x) as [[-> ?]|[-> ?]]; [done|apply Qle_refl].
Qed.

Lemma entry_fmap (f : Q → Q) (m : ScoreMap) (by_ bx : Z) :
  entry ((λ r : list Q, f <$> r) <$> m) by_ bx = f <$> entry m by_ bx.
Proof.
  unfold entry. destruct ((0 <=? by_) && (0 <=? bx)); [|done].
  rewrite list_lookup_fmap. destruct (m !! Z.to_nat by_) as [r|]; simpl; [|done].
  by rewrite list_lookup_fmap.
Qed.

Lemma shape_fmap (f : Q → Q) (rows cols : Z) (m : ScoreMap) :
  shape rows cols m → shape rows cols ((λ r : list Q, f <$> r) <$> m).
Proof.
  intros [Hlen Hall]. split.
  - by rewrite length_fmap.
  - apply Forall_fmap. eapply Forall_impl; [exact Hall|].
    intros r Hr. simpl. by rewrite length_fmap.
Qed.

Lemma entry_elem_of (m : ScoreMap) (by_ bx : Z) (v : Q) :
  entry m by_ bx = Some v → v ∈ concat m.
Proof.
  unfold entry. destruct ((0 <=? by_) && (0 <=? bx)); [|done].
  destruct (m !! Z.to_nat by_) as [r|] eqn:Hr; simpl; [|done].
  intros Hv. apply list_elem_of_In, in_concat. exists r.
  split; apply list_elem_of_In; by eapply list_elem_of_lookup_2.
Qed.

Lemma entry_is_Some (rows cols : Z) (m : ScoreMap) (by_ bx : Z) :
  shape rows cols m → 0 ≤ by_ < rows → 0 ≤ bx < cols → is_Some (entry m by_ bx).
Proof.
  intros [Hlen Hall] Hby Hbx. unfold entry.
  leb_true 0 by_.
  leb_true 0 bx. simpl.
  destruct (lookup_lt_is_Some_2 m (Z.to_nat by_)) as [r Hr]; [lia|].
  rewrite Hr. simpl. apply lookup_lt_is_Some_2.
  rewrite Forall_forall in Hall.
  specialize (Hall r (list_elem_of_lookup_2 _ _ _ Hr)). simpl in Hall. lia.
Qed.

(** The entries of [normalize raw] are the min-max normalisations of the
    entries of [raw], and lie in [0, 1). *)
Lemma normalize_entry (raw : ScoreMap) (by_ bx : Z) (v : Q) :
  entry raw by_ bx = Some v →
  ∃ n, entry (normalize raw) by_ bx = Some n
       ∧ min_max_normalized raw v n ∧ (0 <= n < 1)%Q.
Proof.
  intros Hv. pose proof (entry_elem_of _ _ _ _ Hv) as Hin.
  unfold normalize, min_max_normalized, least, greatest.
  destruct (concat raw) as [|v0 vs] eqn:Hflat; [by apply elem_of_nil in Hin|].
  destruct (Math_min_spec v0 vs) as [Hmin_in Hmin].
  destruct (Math_max_spec v0 vs) as [Hmax_in Hmax].
  rewrite entry_fmap, Hv. simpl. eexists; split; [done|]. split.
  - exists (Math_min v0 vs), (Math_max v0 vs). repeat split; done.
  - pose proof (Hmin v Hin) as H1. pose proof (Hmax v Hin) as H2.
    assert (Hpos : (0 < Math_max v0 vs - Math_min v0 vs + eps)%Q).
    { unfold eps. lra. }
    split.
    + apply Qle_shift_div_l; [done|]. lra.
    + apply Qlt_shift_div_r; [done|]. unfold eps. lra.
Qed.

Lemma shape_normalize (rows cols : Z) (raw : ScoreMap) :
  shape rows cols raw → shape rows cols (normalize raw).
Proof.
  intros Hs. unfold normalize. destruct (concat raw); [done|]. by apply shape_fmap.
Qed.

(** ** Fusion *)

Lemma imapM_Some {A B : Type} (f : Z → A → option B) (g : Z → A → B) (i : Z) (l : list A) :
  (∀ k x, l !! k = Some x → f (i + Z.of_nat k) x = Some (g (i + Z.of_nat k) x)) →
  imapM f i l = Some (imap (λ k x, g (i + Z.of_nat k) x) l).
Proof.
  revert i. induction l as [|x l IH]; intros i Hf; simpl; [done|].
  pose proof (Hf O x eq_refl) as H0. rewrite Z.add_0_r in H0. rewrite H0. simpl.
  rewrite (IH (i + 1)).
  - simpl. rewrite Z.add_0_r. do 2 f_equal.
    apply imap_ext. intros k y _. simpl. f_equal. lia.
  - intros k y Hk. specialize (Hf (S k) y Hk).
    by replace (i + 1 + Z.of_nat k) with (i + Z.of_nat (S k)) by lia.
Qed.

Lemma shape_row (rows cols : Z) (m : ScoreMap) (k : nat) (r : list Q) :
  shape rows cols m → m !! k = Some r →
  Z.of_nat k < rows ∧ Z.of_nat (length r) = cols.
Proof.
  intros [Hlen Hall] Hr. split.
  - apply lookup_lt_Some in Hr. lia.
  - rewrite Forall_forall in Hall. exact (Hall r (list_elem_of_lookup_2 _ _ _ Hr)).
Qed.

(** On four maps of one shape the fusion reads no missing entry, keeps
    the shape, and averages the four entries of every block. *)
Lemma composite_entries (rows cols : Z) (vN gN pN eN : ScoreMap) :
  shape rows cols vN → shape rows cols gN → shape rows cols pN → shape rows cols eN →
  ∃ c, composite vN gN pN eN = Some c ∧ shape rows cols c
       ∧ ∀ by_ bx v g p e,
           entry vN by_ bx = Some v → entry gN by_ bx = Some g →
           entry pN by_ bx = Some p → entry eN by_ bx = Some e →
           entry c by_ bx = Some ((v + g + p + e) / 4)%Q.
Proof.
  intros Hv Hg Hp He.
  set (avg := λ (by_ bx : Z) (v : Q),
         ((v + default 0 (entry gN by_ bx) + default 0 (entry pN by_ bx)
             + default 0 (entry eN by_ bx)) / 4)%Q).
  exists (imap (λ k r, imap (λ j v, avg (0 + Z.of_nat k) (0 + Z.of_nat j) v) r) vN).
  split; [|split].
  - unfold composite.
    apply (imapM_Some _ (λ by_ r, imap (λ j v, avg by_ (0 + Z.of_nat j) v) r)).
    intros k r Hr. destruct (shape_row _ _ _ _ _ Hv Hr) as [Hk Hlen].
    apply (imapM_Some _ (avg (0 + Z.of_nat k))).
    intros j v Hj. apply lookup_lt_Some in Hj.
    destruct (entry_is_Some rows cols gN (0 + Z.of_nat k) (0 + Z.of_nat j)) as [g Hg'];
      [done|lia|lia|].
    destruct (entry_is_Some rows cols pN (0 + Z.of_nat k) (0 + Z.of_nat j)) as [p Hp'];
      [done|lia|lia|].
    destruct (entry_is_Some rows cols eN (0 + Z.of_nat k) (0 + Z.of_nat j)) as [e He'];
      [done|lia|lia|].
    unfold avg. by rewrite Hg', Hp', He'.
  - destruct Hv as [Hlen Hall]. split.
    + by rewrite length_imap.
    + apply Forall_forall. intros r' Hr'.
      apply elem_of_lookup_imap in Hr' as (k & r & -> & Hr). rewrite length_imap.
      rewrite Forall_forall in Hall. exact (Hall r (list_elem_of_lookup_2 _ _ _ Hr)).
  - intros by_ bx v g p e Hev Heg Hep Hee. unfold entry in Hev |- *.
    destruct ((0 <=? by_) && (0 <=? bx)) eqn:Hnn; [|done].
    apply andb_prop in Hnn as [Hby Hbx]. apply Z.leb_le in Hby, Hbx.
    rewrite list_lookup_imap.
    destruct (vN !! Z.to_nat by_) as [r|]; simpl in *; [|done].
    rewrite list_lookup_imap, Hev. simpl. unfold avg.
    rewrite !Z.add_0_l, !Z2Nat.id by lia. by rewrite Heg, Hep, Hee.
Qed.

Lemma entry_invert (m : ScoreMap) (by_ bx : Z) :
  entry (invert m) by_ bx = (λ v, 1 - v)%Q <$> entry m by_ bx.
Proof. apply entry_fmap. Qed.

Lemma shape_invert (rows cols : Z) (m : ScoreMap) :
  shape rows cols m → shape rows cols (invert m).
Proof. apply shape_fmap. Qed.

(** ** Sorting and the threshold *)

Lemma insert_by_perm (cmp : Q → Q → Q) (x : Q) (l : list Q) :
  insert_by cmp x l ≡ₚ x :: l.
Proof.
  induction l as [|y l IH]; simpl; [done|].
  destruct (Qle_bool (cmp x y) 0); [done|].
  rewrite IH. apply perm_swap.
Qed.

Lemma Array_sort_perm (cmp : Q → Q → Q) (l : list Q) : Array_sort cmp l ≡ₚ l.
Proof.
  induction l as [|x l IH]; simpl; [done|].
  rewrite insert_by_perm. by rewrite IH.
Qed.

Lemma compare_minus (x y : Q) : Qle_bool (x - y) 0 = true ↔ (x <= y)%Q.
Proof. rewrite Qle_bool_iff. split; intros; lra. Qed.

Lemma insert_by_sorted (x : Q) (l : list Q) :
  Sorted Qle l → Sorted Qle (insert_by (λ a b, a - b)%Q x l).
Proof.
  induction 1 as [|y l Hl IH Hhd]; simpl.
  - by repeat constructor.
  - destruct (Qle_bool (x - y) 0) eqn:Hc.
    + apply compare_minus in Hc. by repeat constructor.
    + assert (Hyx : (y <= x)%Q).
      { destruct (Qlt_le_dec x y) as [Hlt|Hle]; [|done].
        apply Qlt_le_weak, compare_minus in Hlt. congruence. }
      constructor; [done|].
      destruct Hhd as [|z l' Hyz]; simpl.
      * by constructor.
      * destruct (Qle_bool (x - z) 0); by constructor.
Qed.

Lemma Array_sort_sorted (l : list Q) : Sorted Qle (Array_sort (λ a b, a - b)%Q l).
Proof.
  induction l as [|x l IH]; simpl; [constructor|]. by apply insert_by_sorted.
Qed.

Lemma flatC_perm (composite : ScoreMap) : flatC composite ≡ₚ concat composite.
Proof. apply Array_sort_perm. Qed.

Lemma flatC_length (composite : ScoreMap) :
  length (flatC composite) = length (concat composite).
Proof. by rewrite flatC_perm. Qed.

(** The nearest-rank index stays below [n] for a percentage below 100,
    and is exactly [n] at 100. *)
Lemma thr_index_range (n : Z) (p : Q) :
  0 < n → (0 <= p < 100)%Q → 0 ≤ thr_index n p < n.
Proof.
  intros Hn [Hp0 Hp1]. unfold thr_index, Math_floor.
  assert (Hn' : (0 < inject_Z n)%Q) by (rewrite Zlt_Qlt in Hn; exact Hn).
  split.
  - rewrite <- (Qfloor_Z 0). apply Qfloor_resp_le.
    apply Qle_shift_div_l; [reflexivity|]. rewrite Qmult_0_l. by apply Qmult_le_0_compat; [apply Qlt_le_weak|].
  - rewrite Zlt_Qlt. eapply Qle_lt_trans; [apply Qfloor_le|].
    apply Qlt_shift_div_r; [reflexivity|]. rewrite (Qmult_comm _ 100), (Qmult_comm _ p).
    by apply Qmult_lt_compat_r.
Qed.

Lemma thr_index_100 (n : Z) : thr_index n 100 = n.
Proof.
  unfold thr_index, Math_floor. rewrite <- (Qfloor_Z n) at 2.
  apply Qfloor_comp. field.
Qed.

Lemma thr_index_nonneg (n : Z) (p : Q) : 0 ≤ n → (0 <= p)%Q → 0 ≤ thr_index n p.
Proof.
  intros Hn Hp. unfold thr_index, Math_floor.
  rewrite <- (Qfloor_Z 0). apply Qfloor_resp_le.
  apply Qle_shift_div_l; [reflexivity|]. rewrite Qmult_0_l.
  apply Qmult_le_0_compat; [|done]. rewrite Zle_Qle in Hn. exact Hn.
Qed.

Lemma thr_is_Some (composite : ScoreMap) (p : Q) :
  concat composite ≠ [] → (0 <= p < 100)%Q →
  ∃ t, thr composite p = Some t ∧ t ∈ concat composite.
Proof.
  intros Hne Hp. unfold thr, at_index.
  set (n := Z.of_nat (length (flatC composite))).
  assert (Hn : 0 < n).
  { unfold n. rewrite flatC_length. destruct (concat composite); [done|]. simpl. lia. }
  destruct (thr_index_range n p Hn Hp) as [Hlo Hhi].
  leb_true 0 (thr_index n p).
  destruct (lookup_lt_is_Some_2 (flatC composite) (Z.to_nat (thr_index n p))) as [t Ht];
    [lia|].
  exists t. split; [done|]. rewrite <- flatC_perm. by eapply list_elem_of_lookup_2.
Qed.

Lemma thr_100 (composite : ScoreMap) : thr composite 100 = None.
Proof.
  unfold thr, at_index. rewrite thr_index_100.
  replace (0 <=? Z.of_nat (length (flatC composite))) with true
    by (symmetry; apply Z.leb_le; lia).
  apply lookup_ge_None. lia.
Qed.

(** ** The highlighted blocks *)

Lemma elem_of_forEach {A : Type} (f : A → Z → list DrawCmd) (i : Z) (l : list A) (d : DrawCmd) :
  d ∈ forEach f i l ↔ ∃ k x, l !! k = Some x ∧ d ∈ f x (i + Z.of_nat k).
Proof.
  revert i. induction l as [|x l IH]; intros i; simpl.
  - split; [by intros ?%elem_of_nil|]. by intros (k & y & ? & _).
  - rewrite elem_of_app, IH. split.
    + intros [Hd|(k & y & Hk & Hd)].
      * exists O, x. split; [done|]. by rewrite Z.add_0_r.
      * exists (S k), y. split; [done|].
        by replace (i + Z.of_nat (S k)) with (i + 1 + Z.of_nat k) by lia.
    + intros ([|k] & y & Hk & Hd); simpl in Hk.
      * left. injection Hk as ->. by rewrite Z.add_0_r in Hd.
      * right. exists k, y. split; [done|].
        by replace (i + 1 + Z.of_nat k) with (i + Z.of_nat (S k)) by lia.
Qed.

(** A block is highlighted exactly when its score is at least the
    threshold; no block is when the threshold is [undefined]. *)
Lemma marked_iff (composite : ScoreMap) (t : option Q) (blockSize by_ bx : Z) (score : Q) :
  blockSize ≠ 0 → entry composite by_ bx = Some score →
  marked (highlight composite t blockSize) blockSize by_ bx ↔ ge_thr score t = true.
Proof.
  intros Hb Hscore. unfold marked, highlight. rewrite elem_of_forEach.
  unfold entry in Hscore.
  destruct ((0 <=? by_) && (0 <=? bx)) eqn:Hnn; [|done].
  apply andb_prop in Hnn as [Hby Hbx]. apply Z.leb_le in Hby, Hbx.
  destruct (composite !! Z.to_nat by_) as [r|] eqn:Hr; simpl in Hscore; [|done].
  split.
  - intros (k & r' & Hk & Hd). apply elem_of_forEach in Hd as (j & s & Hj & Hd).
    destruct (ge_thr s t) eqn:Hge; [|by apply elem_of_nil in Hd].
    apply list_elem_of_singleton in Hd. injection Hd as Hx Hy.
    assert (k = Z.to_nat by_) as -> by nia. assert (j = Z.to_nat bx) as -> by nia.
    congruence.
  - intros Hge. exists (Z.to_nat by_), r. split; [done|].
    apply elem_of_forEach. exists (Z.to_nat bx), score. split; [done|].
    rewrite Hge, !Z.add_0_l, !Z2Nat.id by lia. by apply list_elem_of_singleton.
Qed.

Lemma ge_thr_Some (score t : Q) : ge_thr score (Some t) = true ↔ (t <= score)%Q.
Proof. apply Qle_bool_iff. Qed.

Lemma marked_inv (composite : ScoreMap) (t : option Q) (blockSize by_ bx : Z) :
  blockSize ≠ 0 → marked (highlight composite t blockSize) blockSize by_ bx →
  ∃ score, entry composite by_ bx = Some score ∧ ge_thr score t = true.
Proof.
  intros Hb. unfold marked, highlight. rewrite elem_of_forEach.
  intros (k & r & Hk & Hd). apply elem_of_forEach in Hd as (j & s & Hj & Hd).
  destruct (ge_thr s t) eqn:Hge; [|by apply elem_of_nil in Hd].
  apply list_elem_of_singleton in Hd. injection Hd as Hx Hy.
  assert (by_ = Z.of_nat k) as -> by nia. assert (bx = Z.of_nat j) as -> by nia.
  exists s. split; [|done]. unfold entry.
  leb_true 0 (Z.of_nat k).
  leb_true 0 (Z.of_nat j). simpl.
  by rewrite !Nat2Z.id, Hk.
Qed.

Lemma highlight_undefined (composite : ScoreMap) (blockSize : Z) :
  highlight composite None blockSize = [].
Proof.
  unfold highlight. generalize 0 at 2. induction composite as [|r m IH]; intros i; simpl; [done|].
  rewrite IH, app_nil_r. generalize 0. induction r as [|s r IHr]; intros j; simpl; [done|].
  apply IHr.
Qed.


(** ** The fusion step on four maps of one shape *)

Lemma fuse_entries (rows cols : Z) (src : string) (vm gm pm em : ScoreMap)
    (blockSize : Z) (p : Q) :
  shape rows cols vm → shape rows cols gm → shape rows cols pm → shape rows cols em →
  ∃ o, fuse src vm gm pm em blockSize p = Some o
       ∧ shape rows cols (comp o)
       ∧ threshold o = thr (comp o) p
       ∧ drawn o = [drawImage src; fillStyle "rgba(255,0,0,0.4)"]
                   ++ highlight (comp o) (threshold o) blockSize
       ∧ ∀ by_ bx v g q e,
           entry vm by_ bx = Some v → entry gm by_ bx = Some g →
           entry pm by_ bx = Some q → entry em by_ bx = Some e →
           ∃ nv ng nq ne,
             entry (normalize vm) by_ bx = Some nv ∧ min_max_normalized vm v nv
             ∧ entry (normalize gm) by_ bx = Some ng ∧ min_max_normalized gm g ng
             ∧ entry (normalize pm) by_ bx = Some nq ∧ min_max_normalized pm q nq
             ∧ entry (normalize em) by_ bx = Some ne ∧ min_max_normalized em e ne
             ∧ (0 <= nv < 1 ∧ 0 <= ng < 1 ∧ 0 <= nq < 1 ∧ 0 <= ne < 1)%Q
             ∧ entry (comp o) by_ bx
               = Some (((1 - nv) + (1 - ng) + (1 - nq) + ne) / 4)%Q.
Proof.
  intros Hv Hg Hp He. unfold fuse.
  destruct (composite_entries rows cols
              (invert (normalize vm)) (invert (normalize gm))
              (invert (normalize pm)) (normalize em)) as (c & Hc & Hshape & Hentries).
  { by apply shape_invert, shape_normalize. }
  { by apply shape_invert, shape_normalize. }
  { by apply shape_invert, shape_normalize. }
  { by apply shape_normalize. }
  rewrite Hc. simpl. eexists; split; [done|]. simpl.
  split; [done|]. split; [done|]. split; [done|].
  intros by_ bx v g q e Hev Heg Heq Hee.
  destruct (normalize_entry vm by_ bx v Hev) as (nv & Hnv & Hmv & Hbv).
  destruct (normalize_entry gm by_ bx g Heg) as (ng & Hng & Hmg & Hbg).
  destruct (normalize_entry pm by_ bx q Heq) as (nq & Hnq & Hmq & Hbq).
  destruct (normalize_entry em by_ bx e Hee) as (ne & Hne & Hme & Hbe).
  exists nv, ng, nq, ne. repeat (split; [done|]).
  apply Hentries; [by rewrite entry_invert, ?Hnv, ?Hng, ?Hnq ..|done].
Qed.

Lemma elem_of_concat_entry (m : ScoreMap) (v : Q) :
  v ∈ concat m → ∃ by_ bx, entry m by_ bx = Some v.
Proof.
  intros Hv. apply list_elem_of_In, in_concat in Hv as (r & Hr & Hv).
  apply list_elem_of_In, list_elem_of_lookup in Hr as [k Hk].
  apply list_elem_of_In, list_elem_of_lookup in Hv as [j Hj].
  exists (Z.of_nat k), (Z.of_nat j). unfold entry.
  leb_true 0 (Z.of_nat k).
  leb_true 0 (Z.of_nat j). simpl.
  by rewrite !Nat2Z.id, Hk.
Qed.

(** ** The whole analysis runs to its end *)

Lemma detect_total (cv : OpenCV) (f : Frame) (blockSize : Z) :
  well_formed f → 0 < blockSize →
  has_size (denoise cv (gray f)).1 (width f) (height f) →
  ∃ residual,
    cv_subtract (gray f) (denoise cv (gray f)).1 = Some residual
    ∧ has_size residual (width f) (height f)
    ∧ (∀ i j, px residual i j
              = saturate (px (gray f) i j - px (denoise cv (gray f)).1 i j))
    ∧ detect cv f blockSize
      = (Some (tabulate (byCount (height f) blockSize) (bxCount (width f) blockSize)
                 (λ by_ bx, saturated_variance (gray f) (bx * blockSize) (by_ * blockSize)
                              (wBlk (width f) blockSize bx) (hBlk (height f) blockSize by_)),
               tabulate (byCount (height f) blockSize) (bxCount (width f) blockSize)
                 (λ by_ bx, mean_or_zero
                              (block_edges (gray f) (width f) (height f) blockSize by_ bx)),
               tabulate (byCount (height f) blockSize) (bxCount (width f) blockSize)
                 (λ by_ bx, saturated_variance residual (bx * blockSize) (by_ * blockSize)
                              (wBlk (width f) blockSize bx) (hBlk (height f) blockSize by_))),
         (denoise cv (gray f)).2).
Proof.
  intros (Hw & Hh & Hsize & Hu8 & _) Hb Hden. unfold detect.
  destruct (denoise cv (gray f)) as [denoised msgs]. simpl in *.
  rewrite varMap_tabulate, gridMap_tabulate by done. simpl.
  destruct Hsize as [Hr Hc]. destruct Hden as [Hr' Hc'].
  unfold cv_subtract, elementwise, same_size.
  rewrite Hr, Hc, Hr', Hc', !Z.eqb_refl. simpl.
  eexists. split; [done|]. split; [done|]. split; [done|].
  unfold prnuMap.
  fold (varMap (mkMat (height f) (width f)
                  (λ i j, saturate (px (gray f) i j - px denoised i j)))
               (width f) (height f) blockSize).
  by rewrite varMap_tabulate.
Qed.

Lemma analysis_total (cv : OpenCV) (src : string) (f : Frame) (newData : list Z)
    (blockSize : Z) (p : Q) :
  well_formed f → Z.of_nat (length newData) = 4 * width f * height f → 0 < blockSize →
  has_size (denoise cv (gray f)).1 (width f) (height f) →
  ∃ maps o, detect cv f blockSize = (Some maps, (denoise cv (gray f)).2)
            ∧ finish src f maps newData blockSize p = Some o
            ∧ analysis cv src f newData blockSize p = (Some o, (denoise cv (gray f)).2)
            ∧ shape (byCount (height f) blockSize) (bxCount (width f) blockSize) (comp o).
Proof.
  intros Hwf Hn Hb Hden.
  destruct (detect_total cv f blockSize Hwf Hb Hden) as (residual & _ & _ & _ & Hdet).
  destruct Hwf as (Hw & Hh & Hsize & Hu8 & Ho).
  pose proof (byCount_nonneg (height f) blockSize Hb Hh) as Hrows.
  pose proof (byCount_nonneg (width f) blockSize Hb Hw) as Hcols.
  unfold analysis. rewrite Hdet. simpl. rewrite elaMap_tabulate by done. simpl.
  edestruct (fuse_entries (byCount (height f) blockSize) (bxCount (width f) blockSize) src)
    as (o & Hfuse & Hshape & _); [by apply shape_tabulate..|].
  do 2 eexists. split; [done|]. simpl. rewrite elaMap_tabulate by done. simpl.
  rewrite Hfuse. done.
Qed.

(** ** Uniform images *)

Lemma region_sum_uniform (f : Z → Z) (m : Mat) (x y wB hB c : Z) :
  (∀ i j, y ≤ i < y + hB → x ≤ j < x + wB → px m i j = c) →
  0 ≤ wB → 0 ≤ hB →
  region_sum f m x y wB hB = f c * (hB * wB).
Proof.
  intros Hc Hw Hh. unfold region_sum.
  rewrite (sumZ_ext _ (λ _, f c * wB)).
  - rewrite sumZ_const by done. lia.
  - intros i Hi. rewrite (sumZ_ext _ (λ _, f c)).
    + by rewrite sumZ_const.
    + intros j Hj. by rewrite Hc.
Qed.

Lemma region_mean_uniform (f : Z → Z) (m : Mat) (x y wB hB c : Z) :
  (∀ i j, y ≤ i < y + hB → x ≤ j < x + wB → px m i j = c) →
  0 < wB → 0 < hB →
  (region_mean f m x y wB hB == inject_Z (f c))%Q.
Proof.
  intros Hc Hw Hh. unfold region_mean.
  rewrite (region_sum_uniform f m x y wB hB c) by (done || lia).
  rewrite inject_Z_mult. field. apply inject_Z_nonzero. nia.
Qed.

Lemma saturated_variance_uniform (m : Mat) (x y wB hB c : Z) :
  (∀ i j, y ≤ i < y + hB → x ≤ j < x + wB → px m i j = c) →
  0 < wB → 0 < hB →
  (saturated_variance m x y wB hB == inject_Z (saturate (c * c) - c * c))%Q.
Proof.
  intros Hc Hw Hh. unfold saturated_variance.
  rewrite (region_mean_uniform (λ v, saturate (v * v)) m x y wB hB c) by done.
  rewrite (region_mean_uniform (λ v, v) m x y wB hB c) by done.
  unfold Z.sub. rewrite inject_Z_plus, inject_Z_opp, inject_Z_mult. ring.
Qed.

(** On a uniform matrix of the size of the image, the variance score of
    every block of the grid is the same number, 0 when the squares are
    not saturated. *)
Lemma block_uniform (m : Mat) (w h blockSize c by_ bx : Z) :
  has_size m w h → uniform m c → 0 < blockSize → in_grid w h blockSize by_ bx →
  (saturated_variance m (bx * blockSize) (by_ * blockSize)
     (wBlk w blockSize bx) (hBlk h blockSize by_)
   == inject_Z (saturate (c * c) - c * c))%Q.
Proof.
  intros [Hr Hc] Hu Hb [Hby Hbx].
  destruct (block_extent h blockSize by_ Hb Hby) as (Hy & HhB & Hyh & _).
  destruct (block_extent w blockSize bx Hb Hbx) as (Hx & HwB & Hxw & _).
  apply (saturated_variance_uniform m _ _ _ _ c); unfold wBlk, hBlk in *; try lia.
  intros i j Hi Hj. apply Hu; lia.
Qed.

Lemma Qsum_zero (l : list Q) : Forall (λ d, d == 0)%Q l → (Qsum l == 0)%Q.
Proof.
  induction 1 as [|d l Hd _ IH]; simpl; [reflexivity|]. rewrite Hd, IH. reflexivity.
Qed.

Lemma mean_or_zero_zero (l : list Q) : Forall (λ d, d == 0)%Q l → (mean_or_zero l == 0)%Q.
Proof.
  intros Hl. destruct l as [|d l]; [reflexivity|].
  unfold mean_or_zero. rewrite reduce_sum_Qsum, (Qsum_zero _ Hl).
  unfold Qdiv. apply Qmult_0_l.
Qed.

Lemma cell_edges_uniform (gray : Mat) (w h c x0 y0 : Z) :
  has_size gray w h → uniform gray c → 0 ≤ x0 → 0 ≤ y0 →
  Forall (λ d, d == 0)%Q (cell_edges gray w h x0 y0).
Proof.
  intros [Hr Hc] Hu Hx0 Hy0. unfold cell_edges.
  destruct (Z.leb_spec (y0 + 8) h) as [Hy|?]; simpl; [|constructor].
  destruct (Z.leb_spec (x0 + 8) w) as [Hx|?]; simpl; [|constructor].
  apply Forall_app. split.
  - destruct (Z.ltb_spec (x0 + 8) w); [|constructor].
    apply Forall_singleton. unfold right_edge.
    rewrite (sumZ_ext _ (λ _, 0)).
    + rewrite sumZ_const by lia. reflexivity.
    + intros i Hi. rewrite !Hu by lia. lia.
  - destruct (Z.ltb_spec (y0 + 8) h); [|constructor].
    apply Forall_singleton. unfold bottom_edge.
    rewrite (sumZ_ext _ (λ _, 0)).
    + rewrite sumZ_const by lia. reflexivity.
    + intros j Hj. rewrite !Hu by lia. lia.
Qed.

Lemma block_edges_uniform (gray : Mat) (w h blockSize c by_ bx : Z) :
  has_size gray w h → uniform gray c → 0 < blockSize → 0 ≤ by_ → 0 ≤ bx →
  Forall (λ d, d == 0)%Q (block_edges gray w h blockSize by_ bx).
Proof.
  intros Hsize Hu Hb Hby Hbx. unfold block_edges.
  apply Forall_bind, Forall_forall. intros yOff HyOff. simpl.
  apply Forall_bind, Forall_forall. intros xOff HxOff. simpl.
  apply list_elem_of_fmap in HyOff as (ky & -> & Hky). apply elem_of_seqZ in Hky.
  apply list_elem_of_fmap in HxOff as (kx & -> & Hkx). apply elem_of_seqZ in Hkx.
  apply (cell_edges_uniform gray w h c); try done; nia.
Qed.

(** ** Constant maps *)

Lemma constant_tabulate (rows cols : Z) (f : Z → Z → Q) (k : Q) :
  (∀ by_ bx, 0 ≤ by_ < rows → 0 ≤ bx < cols → (f by_ bx == k)%Q) →
  constant_map (tabulate rows cols f) k.
Proof.
  intros Hf v Hv. apply list_elem_of_In, in_concat in Hv as (r & Hr & Hv).
  apply list_elem_of_In in Hr, Hv. unfold tabulate in Hr.
  apply list_elem_of_fmap in Hr as (by_ & -> & Hby).
  apply list_elem_of_fmap in Hv as (bx & -> & Hbx).
  apply elem_of_seqZ in Hby, Hbx. apply Hf; lia.
Qed.

Lemma constant_entry (m : ScoreMap) (k : Q) (by_ bx : Z) (v : Q) :
  constant_map m k → entry m by_ bx = Some v → (v == k)%Q.
Proof. intros Hm Hv. by apply Hm, (entry_elem_of m by_ bx). Qed.

(** A constant map normalises to 0 everywhere: the numerator is 0 and the
    denominator is [1e-8]. *)
Lemma normalize_constant (m : ScoreMap) (k : Q) :
  constant_map m k → constant_map (normalize m) 0.
Proof.
  intros Hm n Hn. apply elem_of_concat_entry in Hn as (by_ & bx & Hn).
  assert (∃ v, entry m by_ bx = Some v) as [v Hv].
  { unfold normalize in Hn. destruct (concat m); [by exists n|].
    rewrite entry_fmap in Hn. destruct (entry m by_ bx) as [v|]; [by exists v|done]. }
  destruct (normalize_entry m by_ bx v Hv) as (n' & Hn' & (mn & mx & [Hmn _] & [Hmx _] & Heq) & _).
  assert (n' = n) as -> by congruence.
  rewrite Heq, (Hm v (entry_elem_of _ _ _ _ Hv)), (Hm mn Hmn), (Hm mx Hmx).
  unfold Qdiv. setoid_replace (k - k)%Q with 0%Q using relation Qeq by ring.
  apply Qmult_0_l.
Qed.

Lemma invert_constant (m : ScoreMap) (k : Q) :
  constant_map m k → constant_map (invert m) (1 - k).
Proof.
  intros Hm v Hv. apply elem_of_concat_entry in Hv as (by_ & bx & Hv).
  rewrite entry_invert in Hv. destruct (entry m by_ bx) as [u|] eqn:Hu; [|done].
  injection Hv as <-. by rewrite (constant_entry m k by_ bx u).
Qed.

(** When all composite values are equal, every percentage below 100
    selects that value and every block is highlighted. *)
Lemma constant_all_marked (composite : ScoreMap) (k : Q) (p : Q) (blockSize : Z) :
  constant_map composite k → concat composite ≠ [] → (0 <= p < 100)%Q → 0 < blockSize →
  (∃ t, thr composite p = Some t ∧ (t == k)%Q)
  ∧ ∀ by_ bx score, entry composite by_ bx = Some score →
      marked (highlight composite (thr composite p) blockSize) blockSize by_ bx.
Proof.
  intros Hconst Hne Hp Hb.
  destruct (thr_is_Some composite p Hne Hp) as (t & Ht & Hin).
  split; [exists t; split; [done|by apply Hconst]|].
  intros by_ bx score Hscore. rewrite Ht.
  apply (marked_iff _ _ _ _ _ score); [lia|done|].
  apply ge_thr_Some. rewrite (Hconst t Hin), (constant_entry _ _ _ _ _ Hconst Hscore).
  apply Qle_refl.
Qed.

Lemma sumZ_zero (s n : Z) : sumZ (λ _, 0) s n = 0.
Proof.
  destruct (Z.le_gt_cases n 0); [by apply sumZ_nil|].
  rewrite sumZ_const by lia. lia.
Qed.

(** A round trip that gives the red bytes back unchanged leaves an
    all-zero ELA map. *)
Lemma elaMap_unchanged (data : list Z) (w h blockSize : Z) :
  Z.of_nat (length data) = 4 * w * h → 0 ≤ w → 0 ≤ h → 0 < blockSize →
  ∃ em, elaMap data data w h blockSize = Some em ∧ constant_map em 0.
Proof.
  intros Hlen Hw Hh Hb. rewrite elaMap_tabulate by done.
  eexists. split; [done|]. apply constant_tabulate. intros by_ bx _ _.
  unfold ela_score, red_difference.
  rewrite (sumZ_ext _ (λ _, 0)).
  - rewrite sumZ_zero. unfold Qdiv. apply Qmult_0_l.
  - intros py _. rewrite (sumZ_ext _ (λ _, 0)).
    + apply sumZ_zero.
    + intros px_ _. rewrite Z.sub_diag. done.
Qed.

(** * The threshold and the highlighted blocks *)



(** C10: at 100 percent the index [floor(N * 100 / 100)] is [N], one past
    the last element of the sorted values; [thr] is [undefined], no
    comparison [score >= thr] holds, and no block is highlighted.  (This
    holds for every map, empty or not.) *)
Theorem C10_threshold_100_marks_nothing (composite : ScoreMap) (blockSize : Z) :
  let N := Z.of_nat (length (concat composite)) in
  Z.of_nat (length (flatC composite)) = N
  ∧ thr_index N 100 = N
  ∧ flatC composite !! Z.to_nat N = None
  ∧ thr composite 100 = None
  ∧ (∀ score, ge_thr score (thr composite 100) = false)
  ∧ highlight composite (thr composite 100) blockSize = []
  ∧ ∀ by_ bx, ¬ marked (highlight composite (thr composite 100) blockSize) blockSize by_ bx.
Proof.
  intros N. rewrite thr_100, highlight_undefined.
  split; [by rewrite flatC_length|]. split; [apply thr_index_100|].
  split; [apply lookup_ge_None; rewrite flatC_length; lia|].
  split; [done|]. split; [done|]. split; [done|].
  intros by_ bx Hm. by apply elem_of_nil in Hm.
Qed.

(** * The block grid *)

(** C2: for an image of [w] by [h] pixels and a positive block size the
    grid has [ceil(h / blockSize)] rows and [ceil(w / blockSize)] columns
    (the least counts whose blocks cover the image); every block of the
    grid, also a trailing partial one, has a clipped region of at least one
    pixel that lies inside the image, and every pixel lies in the region of
    a block; every detector runs over that grid without reading outside the
    image (no [roi] throws, no byte read is [undefined]) and scores the
    clipped region of each block.  A 100 by 50 image with block size 32
    has 2 rows and 4 columns of blocks. *)
Theorem C2_block_grid (w h blockSize : Z) :
  0 ≤ w → 0 ≤ h → 0 < blockSize →
  ((byCount h blockSize - 1) * blockSize < h ≤ byCount h blockSize * blockSize)
  ∧ ((bxCount w blockSize - 1) * blockSize < w ≤ bxCount w blockSize * blockSize)
  ∧ (∀ by_ bx, in_grid w h blockSize by_ bx →
       1 ≤ hBlk h blockSize by_ ≤ blockSize ∧ 1 ≤ wBlk w blockSize bx ≤ blockSize
       ∧ 0 ≤ by_ * blockSize ∧ by_ * blockSize + hBlk h blockSize by_ ≤ h
       ∧ 0 ≤ bx * blockSize ∧ bx * blockSize + wBlk w blockSize bx ≤ w)
  ∧ (∀ py px_, 0 ≤ py < h → 0 ≤ px_ < w →
       ∃ by_ bx, in_grid w h blockSize by_ bx
                 ∧ by_ * blockSize ≤ py < by_ * blockSize + hBlk h blockSize by_
                 ∧ bx * blockSize ≤ px_ < bx * blockSize + wBlk w blockSize bx)
  ∧ (∀ gray residual origData newData,
       has_size gray w h → is_u8 gray → has_size residual w h →
       Z.of_nat (length origData) = 4 * w * h →
       Z.of_nat (length newData) = 4 * w * h →
       ∃ vm gm pm em,
         varMap gray w h blockSize = Some vm
         ∧ gridMap gray w h blockSize = Some gm
         ∧ prnuMap residual w h blockSize = Some pm
         ∧ elaMap origData newData w h blockSize = Some em
         ∧ shape (byCount h blockSize) (bxCount w blockSize) vm
         ∧ shape (byCount h blockSize) (bxCount w blockSize) gm
         ∧ shape (byCount h blockSize) (bxCount w blockSize) pm
         ∧ shape (byCount h blockSize) (bxCount w blockSize) em
         ∧ ∀ by_ bx, in_grid w h blockSize by_ bx →
             entry vm by_ bx
             = Some (saturated_variance gray (bx * blockSize) (by_ * blockSize)
                       (wBlk w blockSize bx) (hBlk h blockSize by_))
             ∧ entry pm by_ bx
               = Some (saturated_variance residual (bx * blockSize) (by_ * blockSize)
                         (wBlk w blockSize bx) (hBlk h blockSize by_))
             ∧ entry gm by_ bx
               = Some (mean_or_zero (block_edges gray w h blockSize by_ bx))
             ∧ entry em by_ bx = Some (ela_score origData newData w h blockSize by_ bx))
  ∧ byCount 50 32 = 2 ∧ bxCount 100 32 = 4.
Proof.
  intros Hw Hh Hb.
  pose proof (byCount_nonneg h blockSize Hb Hh) as Hrows.
  pose proof (byCount_nonneg w blockSize Hb Hw) as Hcols.
  split; [apply (Math_ceil_spec h blockSize Hb)|].
  split; [apply (Math_ceil_spec w blockSize Hb)|].
  split; [|split; [|split]].
  - intros by_ bx [Hby Hbx].
    destruct (block_extent h blockSize by_ Hb Hby) as (? & ? & ? & _).
    destruct (block_extent w blockSize bx Hb Hbx) as (? & ? & ? & _).
    unfold wBlk, hBlk in *. lia.
  - intros py px_ Hpy Hpx.
    destruct (blocks_cover h blockSize py Hb Hpy) as (by_ & Hby & Hin_y & _).
    destruct (blocks_cover w blockSize px_ Hb Hpx) as (bx & Hbx & Hin_x & _).
    exists by_, bx. unfold in_grid, bxCount, byCount, wBlk, hBlk in *. lia.
  - intros gray residual origData newData Hgray Hu8 Hres Ho Hn.
    rewrite varMap_tabulate, gridMap_tabulate by done.
    unfold prnuMap. fold (varMap residual w h blockSize).
    rewrite varMap_tabulate, elaMap_tabulate by done.
    do 4 eexists. repeat (split; [reflexivity|]).
    repeat (split; [by apply shape_tabulate|]).
    intros by_ bx [Hby Hbx]. by rewrite !entry_tabulate.
  - split; by vm_compute.
Qed.

(** C2 on a 100 by 50 ramp with block size 32: the partial block of the
    last row and column is 4 pixels wide and 18 high. *)
Lemma C2_block_grid_witness :
  (∃ vm, varMap (ramp 100 50) 100 50 32 = Some vm ∧ shape 2 4 vm)
  ∧ hBlk 50 32 1 = 18 ∧ wBlk 100 32 3 = 4.
Proof.
  destruct (C2_block_grid 100 50 32) as (_ & _ & _ & _ & Hdet & Hby & Hbx); [lia..|].
  destruct (Hdet (ramp 100 50) (ramp 100 50) (rgba 100 50 (λ _ _, 0)) (rgba 100 50 (λ _ _, 0)))
    as (vm & gm & pm & em & Hvm & _ & _ & _ & Hshape & _).
  - done.
  - intros i j. unfold ramp, saturate. simpl. lia.
  - done.
  - by vm_compute.
  - by vm_compute.
  - rewrite Hby, Hbx in Hshape. split; [by exists vm|]. split; by vm_compute.
Defined.

(** * Normalisation and fusion *)

(** C3: each raw map is normalised on its own by
    [(v - min) / (max - min + 1e-8)], [min] and [max] being its least and
    greatest values; the variance, grid and residual maps are then inverted
    ([1 - normalised], so normalisation comes first) and the ELA map is
    not; the composite value of a block is the sum of the four with weight
    1/4 each, and every composite value lies in [0, 1]. *)
Theorem C3_normalize_and_fuse (rows cols : Z) (src : string)
    (varMap gridMap prnuMap elaMap : ScoreMap) (blockSize : Z) (thresholdPercent : Q) :
  shape rows cols varMap → shape rows cols gridMap →
  shape rows cols prnuMap → shape rows cols elaMap →
  ∃ o, fuse src varMap gridMap prnuMap elaMap blockSize thresholdPercent = Some o
       ∧ shape rows cols (comp o)
       ∧ (∀ by_ bx v g q e,
            entry varMap by_ bx = Some v → entry gridMap by_ bx = Some g →
            entry prnuMap by_ bx = Some q → entry elaMap by_ bx = Some e →
            ∃ nv ng nq ne c,
              min_max_normalized varMap v nv ∧ min_max_normalized gridMap g ng
              ∧ min_max_normalized prnuMap q nq ∧ min_max_normalized elaMap e ne
              ∧ entry (invert (normalize varMap)) by_ bx = Some (1 - nv)%Q
              ∧ entry (invert (normalize gridMap)) by_ bx = Some (1 - ng)%Q
              ∧ entry (invert (normalize prnuMap)) by_ bx = Some (1 - nq)%Q
              ∧ entry (normalize elaMap) by_ bx = Some ne
              ∧ entry (comp o) by_ bx = Some c
              ∧ (c == (1 # 4) * (1 - nv) + (1 # 4) * (1 - ng)
                      + (1 # 4) * (1 - nq) + (1 # 4) * ne)%Q
              ∧ (0 <= c <= 1)%Q)
       ∧ (∀ c, c ∈ concat (comp o) → (0 <= c <= 1)%Q).
Proof.
  intros Hv Hg Hp He.
  destruct (fuse_entries rows cols src varMap gridMap prnuMap elaMap blockSize
              thresholdPercent Hv Hg Hp He) as (o & Ho & Hshape & _ & _ & Hentries).
  assert (Hblock : ∀ by_ bx v g q e,
            entry varMap by_ bx = Some v → entry gridMap by_ bx = Some g →
            entry prnuMap by_ bx = Some q → entry elaMap by_ bx = Some e →
            ∃ nv ng nq ne c,
              min_max_normalized varMap v nv ∧ min_max_normalized gridMap g ng
              ∧ min_max_normalized prnuMap q nq ∧ min_max_normalized elaMap e ne
              ∧ entry (invert (normalize varMap)) by_ bx = Some (1 - nv)%Q
              ∧ entry (invert (normalize gridMap)) by_ bx = Some (1 - ng)%Q
              ∧ entry (invert (normalize prnuMap)) by_ bx = Some (1 - nq)%Q
              ∧ entry (normalize elaMap) by_ bx = Some ne
              ∧ entry (comp o) by_ bx = Some c
              ∧ (c == (1 # 4) * (1 - nv) + (1 # 4) * (1 - ng)
                      + (1 # 4) * (1 - nq) + (1 # 4) * ne)%Q
              ∧ (0 <= c <= 1)%Q).
  { intros by_ bx v g q e Hev Heg Heq Hee.
    destruct (Hentries by_ bx v g q e Hev Heg Heq Hee)
      as (nv & ng & nq & ne & Hnv & Hmv & Hng & Hmg & Hnq & Hmq & Hne & Hme & Hb & Hc).
    exists nv, ng, nq, ne. eexists. repeat (split; [done|]).
    rewrite !entry_invert, Hnv, Hng, Hnq. repeat (split; [done|]).
    split; [field|]. destruct Hb as (? & ? & ? & ?).
    split; [apply Qle_shift_div_l|apply Qle_shift_div_r]; lra. }
  exists o. repeat (split; [done|]).
  intros c Hc. apply elem_of_concat_entry in Hc as (by_ & bx & Hc).
  destruct (entry_Some_range _ _ _ _ _ _ Hshape Hc) as [Hby Hbx].
  destruct (entry_is_Some rows cols varMap by_ bx Hv Hby Hbx) as [v Hev].
  destruct (entry_is_Some rows cols gridMap by_ bx Hg Hby Hbx) as [g Heg].
  destruct (entry_is_Some rows cols prnuMap by_ bx Hp Hby Hbx) as [q Heq].
  destruct (entry_is_Some rows cols elaMap by_ bx He Hby Hbx) as [e Hee].
  destruct (Hblock by_ bx v g q e Hev Heg Heq Hee)
    as (nv & ng & nq & ne & c' & _ & _ & _ & _ & _ & _ & _ & _ & Hc' & _ & Hrange).
  congruence.
Qed.

(** C3 on four 1 by 2 maps. *)
Lemma C3_normalize_and_fuse_witness :
  ∃ o, fuse "a.jpg" [[1; 3]]%Q [[2; 2]]%Q [[0; 5]]%Q [[4; 1]]%Q 32 80 = Some o
       ∧ ∀ c, c ∈ concat (comp o) → (0 <= c <= 1)%Q.
Proof.
  destruct (C3_normalize_and_fuse 1 2 "a.jpg" [[1; 3]]%Q [[2; 2]]%Q [[0; 5]]%Q [[4; 1]]%Q 32 80)
    as (o & Ho & _ & _ & Hrange).
  - split; [done|]. by repeat constructor.
  - split; [done|]. by repeat constructor.
  - split; [done|]. by repeat constructor.
  - split; [done|]. by repeat constructor.
  - by exists o.
Defined.

(** * The detectors *)



(** C6: the ELA score of a block is the sum, over the clipped region of
    the block, of the absolute differences between the red bytes (index
    [(py * w + px) * 4]) of the original and of the recompressed pixels,
    divided by [blockSize * blockSize] whatever the size of the clipped
    region; the normalised ELA map enters the fusion as it is, without the
    inversion applied to the three other maps. *)
Theorem C6_ela_score (origData newData : list Z) (w h blockSize : Z) :
  Z.of_nat (length origData) = 4 * w * h →
  Z.of_nat (length newData) = 4 * w * h →
  0 ≤ w → 0 ≤ h → 0 < blockSize →
  ∃ em, elaMap origData newData w h blockSize = Some em
        ∧ shape (byCount h blockSize) (bxCount w blockSize) em
        ∧ (∀ by_ bx, in_grid w h blockSize by_ bx →
             entry em by_ bx
             = Some (inject_Z (red_difference origData newData w
                                 (bx * blockSize) (by_ * blockSize)
                                 (wBlk w blockSize bx) (hBlk h blockSize by_))
                     / inject_Z (blockSize * blockSize))%Q)
        ∧ ∀ src vm gm pm thresholdPercent,
            shape (byCount h blockSize) (bxCount w blockSize) vm →
            shape (byCount h blockSize) (bxCount w blockSize) gm →
            shape (byCount h blockSize) (bxCount w blockSize) pm →
            ∃ o, fuse src vm gm pm em blockSize thresholdPercent = Some o
                 ∧ ∀ by_ bx e, entry em by_ bx = Some e →
                     ∃ v' g' q' ne,
                       entry (invert (normalize vm)) by_ bx = Some v'
                       ∧ entry (invert (normalize gm)) by_ bx = Some g'
                       ∧ entry (invert (normalize pm)) by_ bx = Some q'
                       ∧ entry (normalize em) by_ bx = Some ne
                       ∧ min_max_normalized em e ne
                       ∧ entry (comp o) by_ bx = Some ((v' + g' + q' + ne) / 4)%Q.
Proof.
  intros Ho Hn Hw Hh Hb. rewrite elaMap_tabulate by done.
  pose proof (shape_tabulate (byCount h blockSize) (bxCount w blockSize)
                (ela_score origData newData w h blockSize)
                (byCount_nonneg h blockSize Hb Hh) (byCount_nonneg w blockSize Hb Hw))
    as Hshape.
  eexists. split; [done|]. split; [done|]. split.
  - intros by_ bx [Hby Hbx]. by rewrite entry_tabulate.
  - intros src vm gm pm p Hv Hg Hp.
    destruct (fuse_entries _ _ src vm gm pm _ blockSize p Hv Hg Hp Hshape)
      as (o & Hfuse & _ & _ & _ & Hentries).
    exists o. split; [done|]. intros by_ bx e He.
    destruct (entry_Some_range _ _ _ _ _ _ Hshape He) as [Hby Hbx].
    destruct (entry_is_Some _ _ vm by_ bx Hv Hby Hbx) as [v Hev].
    destruct (entry_is_Some _ _ gm by_ bx Hg Hby Hbx) as [g Heg].
    destruct (entry_is_Some _ _ pm by_ bx Hp Hby Hbx) as [q Heq].
    destruct (Hentries by_ bx v g q e Hev Heg Heq He)
      as (nv & ng & nq & ne & Hnv & _ & Hng & _ & Hnq & _ & Hne & Hme & _ & Hc).
    exists (1 - nv)%Q, (1 - ng)%Q, (1 - nq)%Q, ne.
    rewrite !entry_invert, Hnv, Hng, Hnq. by repeat split.
Qed.

(** C6 on a 33 by 1 image whose recompression is off by one everywhere:
    the partial block of one pixel scores 1 / 1024. *)
Lemma C6_ela_score_witness :
  ∃ em, elaMap (rgba 33 1 (λ _ _, 7)) (rgba 33 1 (λ _ _, 8)) 33 1 32 = Some em
        ∧ let sum := red_difference (rgba 33 1 (λ _ _, 7)) (rgba 33 1 (λ _ _, 8))
                       33 32 0 1 1 in
          sum = 1 ∧ entry em 0 1 = Some (inject_Z sum / inject_Z 1024)%Q.
Proof.
  destruct (C6_ela_score (rgba 33 1 (λ _ _, 7)) (rgba 33 1 (λ _ _, 8)) 33 1 32)
    as (em & Hem & _ & Hentry & _).
  - by vm_compute.
  - by vm_compute.
  - lia.
  - lia.
  - lia.
  - exists em. split; [done|]. split; [by vm_compute|]. apply (Hentry 0 1). by vm_compute.
Defined.

(** C7, at a uniform image of grey level 100 (one pixel, block size 32):
    [cv.multiply] saturates the square 10000 to 255, so [varMap] holds
    255 - 100 * 100 = -9745 where the population variance is 0.  Likewise
    [cv.subtract] saturates negative residuals to 0: for the samples
    [10; 30] denoised to [20; 20] the residual kept is [0; 10] instead of
    [-10; 10], and [prnuMap] holds 25 where the variance of
    [original - denoised] is 100. *)
Theorem C7_variance_saturates :
  (∃ v, varMap (flat_mat 1 1 100) 1 1 32 = Some [[v]]
        ∧ (v == -9745)%Q
        ∧ (population_variance (flat_mat 1 1 100) 0 0 1 1 == 0)%Q)
  ∧ (let original := mkMat 1 2 (λ _ j, if j =? 0 then 10 else 30) in
     let denoised := flat_mat 2 1 20 in
     let difference := mkMat 1 2 (λ i j, px original i j - px denoised i j) in
     ∃ residual v,
       cv_subtract original denoised = Some residual
       ∧ px residual 0 0 = 0 ∧ px difference 0 0 = -10
       ∧ prnuMap residual 2 1 32 = Some [[v]]
       ∧ (v == 25)%Q
       ∧ (population_variance difference 0 0 2 1 == 100)%Q).
Proof.
  split.
  - eexists. split; [by vm_compute|]. split; by vm_compute.
  - eexists. eexists. split; [by vm_compute|]. simpl.
    split; [done|]. split; [done|]. split; [by vm_compute|]. split; by vm_compute.
Qed.

(** * Denoising *)



(** * Replacing the source during the round trip *)

(** C9, as stated, fails: after the source "a.jpg" has been replaced by
    "b.jpg" while the round trip of "a.jpg" was outstanding, the callback
    of that round trip still draws on the canvas and clears [loading]. *)
Lemma C9_counterexample_stale_result_written : ¬ stale_results_discarded opencv_js.
Proof.
  intros Hclaim.
  destruct (Hclaim props_a replaced_in_flight O props_a (flat_frame 1 1 10)
              (default ([], [], []) (detect opencv_js (flat_frame 1 1 10) 32).1)
              (rgba 1 1 (λ _ _, 10))) as [_ Hloading].
  - by vm_compute.
  - by vm_compute.
  - vm_compute in Hloading. discriminate.
Qed.

(** C9, amended: the component keeps no run token.  A render with new
    props registers a new callback and leaves the registered ones in
    place; when the round trip of any registered run completes, whatever
    the current props are, its overlay (starting with its own image) is
    drawn on the shared canvas and [loading] is cleared; nothing is
    written to the console. *)
Theorem C9_round_trip_result_is_drawn (cv : OpenCV) (c : Component) (i : nat)
    (p : Props) (f : Frame) (maps : ScoreMap * ScoreMap * ScoreMap)
    (newData : list Z) (o : Overlay) :
  pending c !! i = Some (img2_onload p f maps) →
  finish (src p) f maps newData (blockSize p) (thresholdPercent p) = Some o →
  (∀ p', let c1 := step cv c (render p') in
         props c1 = p' ∧ pending c1 !! i = Some (img2_onload p f maps)
         ∧ canvas (step cv c1 (recompressed i newData)) = canvas c ++ drawn o
         ∧ loading (step cv c1 (recompressed i newData)) = false)
  ∧ let c' := step cv c (recompressed i newData) in
    canvas c' = canvas c ++ drawn o
    ∧ drawImage (src p) ∈ drawn o
    ∧ loading c' = false
    ∧ console c' = console c
    ∧ props c' = props c
    ∧ pending c' = delete i (pending c).
Proof.
  intros Hi Ho. split.
  - intros p'. simpl. rewrite lookup_app_l by (by eapply lookup_lt_Some).
    rewrite Hi, Ho. done.
  - simpl. rewrite Hi, Ho. simpl. repeat split.
    destruct maps as [[vm gm] pm]. unfold finish, fuse in Ho.
    destruct (elaMap _ _ _ _ _); simpl in Ho; [|done].
    destruct (composite _ _ _ _); simpl in Ho; [|done].
    injection Ho as <-. simpl. by left.
Qed.

(** C9 amended, on the trace where "b.jpg" replaces "a.jpg" in flight. *)
Lemma C9_round_trip_result_is_drawn_witness :
  let c := run opencv_js (mounted props_a) replaced_in_flight in
  let c' := step opencv_js c (recompressed 0 (rgba 1 1 (λ _ _, 10))) in
  src (props c) = "b.jpg" ∧ drawImage "a.jpg" ∈ canvas c' ∧ loading c' = false.
Proof.
  intros c c'.
  destruct (C9_round_trip_result_is_drawn opencv_js c O props_a (flat_frame 1 1 10)
              (default ([], [], []) (detect opencv_js (flat_frame 1 1 10) 32).1)
              (rgba 1 1 (λ _ _, 10))
              (default (mkOverlay [] None [])
                 (finish "a.jpg" (flat_frame 1 1 10)
                    (default ([], [], []) (detect opencv_js (flat_frame 1 1 10) 32).1)
                    (rgba 1 1 (λ _ _, 10)) 32 80)))
    as (_ & Hcanvas & Hdrawn & Hloading & _).
  - by vm_compute.
  - by vm_compute.
  - split; [done|]. split; [|exact Hloading].
    fold c' in Hcanvas. rewrite Hcanvas. apply elem_of_app. by right.
Defined.

(** * Uniform images *)

(** C4, as stated, fails: on a black image of one pixel, reproduced
    exactly by the round trip, with 100 percent the threshold is
    [undefined] and no block is highlighted. *)
Lemma C4_counterexample_unmarked_at_100 : ¬ uniform_image_claim.
Proof.
  intros Hclaim.
  destruct (Hclaim opencv_js "a.jpg" (flat_frame 1 1 0) 0 (rgba 1 1 (λ _ _, 0)) 32 100%Q)
    as (vm & gm & pm & o & k & _ & _ & _ & _ & _ & _ & _ & _ & _ & _ & Ho & _ & (t & Ht & _) & _).
  - repeat split; try (simpl; lia); by vm_compute.
  - simpl. lia.
  - simpl. lia.
  - by intros i j _ _.
  - done.
  - intros i j _ _. by vm_compute.
  - by vm_compute.
  - lia.
  - split; by vm_compute.
  - vm_compute in Ho. injection Ho as <-. simpl in Ht. discriminate.
Qed.

(** Nor does it hold at the default 80 percent when the round trip changes
    the image: with every red byte off by one, the partial block of a 33
    by 1 image has a lower ELA score than the full block and is not
    highlighted. *)
Lemma uniform_image_partial_block_unmarked :
  ∃ o, (analysis opencv_js "a.jpg" (flat_frame 33 1 7) (rgba 33 1 (λ _ _, 8)) 32 80).1 = Some o
       ∧ in_grid 33 1 32 0 1
       ∧ ¬ marked (drawn o) 32 0 1.
Proof.
  eexists. split; [by vm_compute|]. split; [by vm_compute|].
  unfold marked. simpl. intros Hm.
  repeat (apply elem_of_cons in Hm as [Hm|Hm]; [discriminate|]).
  by apply elem_of_nil in Hm.
Qed.

(** C4, amended: for a uniform image of at least one pixel whose denoised
    copy is the same uniform image, the grid and residual raw maps are all
    zero and the variance raw map is constant (all zero for a grey level
    up to 15); each of the three normalises to 0 everywhere, the [1e-8] in
    the denominator ruling out a division by zero, and inverts to 1
    everywhere.  If moreover the ELA raw map is constant, the composite map
    is constant, 3/4; then for every percentage below 100 the threshold is
    that value and every block of the grid is highlighted. *)
Theorem C4_uniform_image (cv : OpenCV) (src : string) (f : Frame) (c : Z)
    (newData : list Z) (blockSize : Z) (p k : Q) (ela : ScoreMap) :
  well_formed f → 1 ≤ width f → 1 ≤ height f → uniform (gray f) c →
  has_size (denoise cv (gray f)).1 (width f) (height f) →
  uniform (denoise cv (gray f)).1 c →
  Z.of_nat (length newData) = 4 * width f * height f →
  0 < blockSize →
  elaMap (origData f) newData (width f) (height f) blockSize = Some ela →
  constant_map ela k →
  (0 <= p < 100)%Q →
  ∃ vm gm pm o,
    (detect cv f blockSize).1 = Some (vm, gm, pm)
    ∧ constant_map vm (inject_Z (saturate (c * c) - c * c))
    ∧ (c ≤ 15 → constant_map vm 0)
    ∧ constant_map gm 0 ∧ constant_map pm 0
    ∧ constant_map (normalize vm) 0 ∧ constant_map (normalize gm) 0
    ∧ constant_map (normalize pm) 0
    ∧ constant_map (invert (normalize vm)) 1 ∧ constant_map (invert (normalize gm)) 1
    ∧ constant_map (invert (normalize pm)) 1
    ∧ (analysis cv src f newData blockSize p).1 = Some o
    ∧ constant_map (comp o) (3 # 4)
    ∧ (∃ t, threshold o = Some t ∧ (t == 3 # 4)%Q)
    ∧ ∀ by_ bx, in_grid (width f) (height f) blockSize by_ bx →
        marked (drawn o) blockSize by_ bx.
Proof.
  intros Hwf Hw1 Hh1 Hu Hdsize Hdu Hn Hb Hela Hem Hp.
  destruct (detect_total cv f blockSize Hwf Hb Hdsize)
    as (residual & _ & Hrsize & Hres & Hdet).
  destruct Hwf as (Hw & Hh & Hsize & Hu8 & Ho).
  rewrite elaMap_tabulate in Hela by done. injection Hela as <-.
  set (rows := byCount (height f) blockSize) in *.
  set (cols := bxCount (width f) blockSize) in *.
  assert (Hrows : 1 ≤ rows).
  { destruct (Math_ceil_spec (height f) blockSize Hb) as [_ Hhi]. fold (byCount (height f) blockSize) in Hhi.
    fold rows in Hhi. nia. }
  assert (Hcols : 1 ≤ cols).
  { destruct (Math_ceil_spec (width f) blockSize Hb) as [_ Hhi]. fold (bxCount (width f) blockSize) in Hhi.
    fold cols in Hhi. nia. }
  assert (Hc : 0 ≤ c ≤ 255).
  { rewrite <- (Hu 0 0); [apply Hu8|destruct Hsize; lia..]. }
  match type of Hdet with _ = (Some (?a, ?b, ?d), _) =>
    set (vm := a) in *; set (gm := b) in *; set (pm := d) in * end.
  set (em := tabulate rows cols
               (ela_score (origData f) newData (width f) (height f) blockSize)) in *.
  assert (Hvm : constant_map vm (inject_Z (saturate (c * c) - c * c))).
  { apply constant_tabulate. intros by_ bx Hby Hbx.
    by apply (block_uniform (gray f) (width f) (height f)). }
  assert (Hgm : constant_map gm 0).
  { apply constant_tabulate. intros by_ bx Hby Hbx.
    apply mean_or_zero_zero.
    apply (block_edges_uniform (gray f) (width f) (height f) blockSize c); (done || lia). }
  assert (Hpm : constant_map pm 0).
  { apply constant_tabulate. intros by_ bx Hby Hbx.
    rewrite (block_uniform residual (width f) (height f) blockSize 0); try done.
    intros i j Hi Hj. rewrite Hres. destruct Hrsize as [Hr1 Hr2].
    destruct Hsize as [Hs1 Hs2]. destruct Hdsize as [Hd1 Hd2].
    rewrite Hu, Hdu by lia. unfold saturate. lia. }
  assert (Hsv : shape rows cols vm) by (apply shape_tabulate; lia).
  assert (Hsg : shape rows cols gm) by (apply shape_tabulate; lia).
  assert (Hsp : shape rows cols pm) by (apply shape_tabulate; lia).
  assert (Hse : shape rows cols em) by (apply shape_tabulate; lia).
  destruct (fuse_entries rows cols src vm gm pm em blockSize p Hsv Hsg Hsp Hse)
    as (o & Hfuse & Hshape & Hthr & Hdrawn & Hentries).
  assert (Hcomp : constant_map (comp o) (3 # 4)).
  { intros v Hv. apply elem_of_concat_entry in Hv as (by_ & bx & Hv).
    destruct (entry_Some_range _ _ _ _ _ _ Hshape Hv) as [Hby Hbx].
    destruct (entry_is_Some _ _ vm by_ bx Hsv Hby Hbx) as [v1 Hv1].
    destruct (entry_is_Some _ _ gm by_ bx Hsg Hby Hbx) as [v2 Hv2].
    destruct (entry_is_Some _ _ pm by_ bx Hsp Hby Hbx) as [v3 Hv3].
    destruct (entry_is_Some _ _ em by_ bx Hse Hby Hbx) as [v4 Hv4].
    destruct (Hentries by_ bx v1 v2 v3 v4 Hv1 Hv2 Hv3 Hv4)
      as (nv & ng & nq & ne & Hnv & _ & Hng & _ & Hnq & _ & Hne & _ & _ & Hc').
    rewrite Hv in Hc'. injection Hc' as ->.
    rewrite (constant_entry _ _ _ _ _ (normalize_constant _ _ Hvm) Hnv).
    rewrite (constant_entry _ _ _ _ _ (normalize_constant _ _ Hgm) Hng).
    rewrite (constant_entry _ _ _ _ _ (normalize_constant _ _ Hpm) Hnq).
    rewrite (constant_entry _ _ _ _ _ (normalize_constant _ _ Hem) Hne).
    reflexivity. }
  assert (Hne : concat (comp o) ≠ []).
  { destruct (entry_is_Some rows cols (comp o) 0 0 Hshape) as [v Hv]; [lia..|].
    apply entry_elem_of in Hv. intros Hnil. rewrite Hnil in Hv. by apply elem_of_nil in Hv. }
  destruct (constant_all_marked (comp o) (3 # 4) p blockSize Hcomp Hne Hp Hb)
    as [Ht Hmarked].
  exists vm, gm, pm, o.
  split; [by rewrite Hdet|]. split; [done|].
  split.
  { intros Hdark v Hv. rewrite (Hvm v Hv).
    replace (saturate (c * c)) with (c * c) by (unfold saturate; nia).
    by rewrite Z.sub_diag. }
  split; [done|]. split; [done|].
  split; [by eapply normalize_constant|]. split; [by eapply normalize_constant|].
  split; [by eapply normalize_constant|].
  split; [apply (invert_constant _ 0); by eapply normalize_constant|].
  split; [apply (invert_constant _ 0); by eapply normalize_constant|].
  split; [apply (invert_constant _ 0); by eapply normalize_constant|].
  split.
  { unfold analysis. rewrite Hdet. simpl.
    rewrite elaMap_tabulate by done. simpl. exact Hfuse. }
  split; [done|]. split; [by rewrite Hthr|].
  intros by_ bx [Hby Hbx].
  destruct (entry_is_Some rows cols (comp o) by_ bx Hshape Hby Hbx) as [v Hv].
  unfold marked. rewrite Hdrawn, Hthr. apply elem_of_app. right.
  by apply (Hmarked by_ bx v).
Qed.

(** C4 amended, on a 4 by 2 image of grey level 50 whose recompression is
    off by one everywhere (ELA score 1 in both blocks), block size 2, 80
    percent. *)
Lemma C4_uniform_image_witness :
  ∃ o, (analysis opencv_js "a.jpg" (flat_frame 4 2 50) (rgba 4 2 (λ _ _, 51)) 2 80).1 = Some o
       ∧ constant_map (comp o) (3 # 4)
       ∧ marked (drawn o) 2 0 0 ∧ marked (drawn o) 2 0 1.
Proof.
  destruct (C4_uniform_image opencv_js "a.jpg" (flat_frame 4 2 50) 50
              (rgba 4 2 (λ _ _, 51)) 2 80 1
              (default [] (elaMap (rgba 4 2 (λ _ _, 50)) (rgba 4 2 (λ _ _, 51)) 4 2 2)))
    as (vm & gm & pm & o & _ & _ & _ & _ & _ & _ & _ & _ & _ & _ & _ & Ho & Hcomp & _ & Hmarked).
  - repeat split; try (simpl; lia); by vm_compute.
  - simpl. lia.
  - simpl. lia.
  - by intros i j _ _.
  - done.
  - intros i j _ _. by vm_compute.
  - by vm_compute.
  - lia.
  - by vm_compute.
  - intros v Hv. vm_compute in Hv.
    repeat (apply elem_of_cons in Hv as [->|Hv]; [by vm_compute|]).
    by apply elem_of_nil in Hv.
  - split; by vm_compute.
  - exists o. split; [done|]. split; [done|].
    split; apply Hmarked; by vm_compute.
Defined.

(** * Further properties of the threshold *)

Lemma Qle_transitive : Relations_1.Transitive Qle.
Proof. intros x y z. apply Qle_trans. Qed.

Lemma sorted_lookup_le (s : list Q) (i j : nat) (a b : Q) :
  Sorted Qle s → (i ≤ j)%nat → s !! i = Some a → s !! j = Some b → (a <= b)%Q.
Proof.
  intros Hs. apply (Sorted_StronglySorted Qle_transitive) in Hs.
  revert i j. induction Hs as [|x s Hs IH Hall]; intros i j Hij Hi Hj; [done|].
  destruct i as [|i], j as [|j]; simpl in *.
  - injection Hi as <-. injection Hj as <-. apply Qle_refl.
  - injection Hi as <-. rewrite List.Forall_forall in Hall. apply Hall.
    apply list_elem_of_In. by eapply list_elem_of_lookup_2.
  - lia.
  - apply (IH i j); (done || lia).
Qed.

Lemma thr_index_mono (n : Z) (p p' : Q) :
  0 ≤ n → (p <= p')%Q → thr_index n p ≤ thr_index n p'.
Proof.
  intros Hn Hp. unfold thr_index, Math_floor. apply Qfloor_resp_le.
  apply Qmult_le_compat_r; [|by vm_compute].
  rewrite Zle_Qle in Hn. rewrite (Qmult_comm _ p), (Qmult_comm _ p').
  by apply Qmult_le_compat_r.
Qed.

Lemma thr_lookup (composite : ScoreMap) (p : Q) :
  (0 <= p)%Q →
  thr composite p
  = flatC composite !! Z.to_nat (thr_index (Z.of_nat (length (flatC composite))) p).
Proof.
  intros Hp. unfold thr, at_index.
  pose proof (thr_index_nonneg (Z.of_nat (length (flatC composite))) p ltac:(lia) Hp).
  by leb_true 0 (thr_index (Z.of_nat (length (flatC composite))) p).
Qed.

(** X1: raising the percentage never lowers the threshold and never
    highlights a block that was not highlighted before. *)
Theorem highlight_shrinks_with_percent (composite : ScoreMap) (p p' : Q)
    (blockSize by_ bx : Z) :
  (0 <= p <= p')%Q → 0 < blockSize →
  (∀ t t', thr composite p = Some t → thr composite p' = Some t' → (t <= t')%Q)
  ∧ (is_Some (thr composite p') → is_Some (thr composite p))
  ∧ (marked (highlight composite (thr composite p') blockSize) blockSize by_ bx →
     marked (highlight composite (thr composite p) blockSize) blockSize by_ bx).
Proof.
  intros [Hp0 Hpp] Hb.
  assert (Hp0' : (0 <= p')%Q) by (by eapply Qle_trans).
  rewrite (thr_lookup composite p Hp0), (thr_lookup composite p' Hp0').
  set (n := Z.of_nat (length (flatC composite))).
  pose proof (thr_index_mono n p p' ltac:(lia) Hpp) as Hmono.
  pose proof (thr_index_nonneg n p ltac:(lia) Hp0) as Hk.
  assert (Hle : ∀ t t', flatC composite !! Z.to_nat (thr_index n p) = Some t →
                        flatC composite !! Z.to_nat (thr_index n p') = Some t' → (t <= t')%Q).
  { intros t t' Ht Ht'.
    apply (sorted_lookup_le (flatC composite) (Z.to_nat (thr_index n p))
             (Z.to_nat (thr_index n p'))); [apply Array_sort_sorted|lia|done..]. }
  assert (Hsome : is_Some (flatC composite !! Z.to_nat (thr_index n p')) →
                  is_Some (flatC composite !! Z.to_nat (thr_index n p))).
  { rewrite !lookup_lt_is_Some. lia. }
  split; [done|]. split; [done|].
  intros Hm. apply marked_inv in Hm as (score & Hscore & Hge); [|lia].
  apply (marked_iff _ _ _ _ _ score); [lia|done|].
  destruct (flatC composite !! Z.to_nat (thr_index n p')) as [t'|] eqn:Ht'; [|done].
  destruct (Hsome ltac:(done)) as [t Ht]. rewrite Ht.
  apply ge_thr_Some. apply ge_thr_Some in Hge.
  eapply Qle_trans; [by apply (Hle t t')|done].
Qed.

(** With the default 80 percent against 50 percent on the ten values
    0.1 .. 1.0. *)
Lemma highlight_shrinks_with_percent_witness :
  marked (highlight ten_values (thr ten_values 50) 32) 32 0 9.
Proof.
  apply (highlight_shrinks_with_percent ten_values 50 80 32 0 9).
  - split; by vm_compute.
  - lia.
  - unfold marked. vm_compute. apply list_elem_of_In. simpl. tauto.
Defined.









(** * Further properties of the normalisation *)

Lemma least_unique (m : ScoreMap) (a b : Q) : least m a → least m b → (a == b)%Q.
Proof. intros [Ha Hla] [Hb Hlb]. apply Qle_antisym; [by apply Hla|by apply Hlb]. Qed.

Lemma greatest_unique (m : ScoreMap) (a b : Q) : greatest m a → greatest m b → (a == b)%Q.
Proof. intros [Ha Hga] [Hb Hgb]. apply Qle_antisym; [by apply Hgb|by apply Hga]. Qed.

Lemma range_positive (m : ScoreMap) (mn mx : Q) :
  least m mn → greatest m mx → (0 < mx - mn + eps)%Q.
Proof. intros [Hin Hmn] [_ Hmx]. specialize (Hmx mn Hin). unfold eps. lra. Qed.

(** X4: normalisation keeps the order of the values of a map and sends its
    least value to 0 and its greatest to less than 1; the inversion
    reverses the order, so that the blocks with the least raw value get
    exactly 1 and every inverted value is positive. *)
Theorem normalize_order (raw : ScoreMap) (by_ bx by' bx' : Z) (v u : Q) :
  entry raw by_ bx = Some v → entry raw by' bx' = Some u → (v <= u)%Q →
  ∃ nv nu,
    entry (normalize raw) by_ bx = Some nv ∧ entry (normalize raw) by' bx' = Some nu
    ∧ entry (invert (normalize raw)) by_ bx = Some (1 - nv)%Q
    ∧ entry (invert (normalize raw)) by' bx' = Some (1 - nu)%Q
    ∧ (0 <= nv <= nu ∧ nu < 1)%Q
    ∧ (0 < 1 - nu <= 1 - nv ∧ 1 - nv <= 1)%Q
    ∧ (least raw v → nv == 0 ∧ 1 - nv == 1)%Q
    ∧ (v < u → nv < nu)%Q.
Proof.
  intros Hv Hu Hle.
  destruct (normalize_entry raw by_ bx v Hv) as (nv & Hnv & (mn & mx & Hmn & Hmx & Hev) & Hbv).
  destruct (normalize_entry raw by' bx' u Hu) as (nu & Hnu & (mn' & mx' & Hmn' & Hmx' & Heu) & Hbu).
  pose proof (range_positive raw mn mx Hmn Hmx) as Hd.
  assert (Heu' : (nu == (u - mn) / (mx - mn + eps))%Q).
  { by rewrite Heu, (least_unique raw mn' mn), (greatest_unique raw mx' mx). }
  assert (Hmono : (nv <= nu)%Q).
  { rewrite Hev, Heu'. unfold Qdiv. apply Qmult_le_compat_r; [lra|].
    apply Qlt_le_weak, Qinv_lt_0_compat, Hd. }
  exists nv, nu. rewrite !entry_invert, Hnv, Hnu. simpl.
  repeat (split; [done|]).
  split; [lra|]. split; [lra|]. split.
  - intros Hleast. assert (Hz : (nv == 0)%Q).
    { rewrite Hev, (least_unique raw v mn Hleast Hmn). unfold Qdiv.
      setoid_replace (mn - mn)%Q with 0%Q using relation Qeq by ring. apply Qmult_0_l. }
    split; [done|]. rewrite Hz. reflexivity.
  - intros Hlt. rewrite Hev, Heu'. unfold Qdiv. apply Qmult_lt_compat_r; [|lra].
    by apply Qinv_lt_0_compat.
Qed.

(** On the map [[1; 3]]: 1 is the least value. *)
Lemma normalize_order_witness :
  ∃ nv nu, entry (normalize [[1; 3]]%Q) 0 0 = Some nv ∧ entry (normalize [[1; 3]]%Q) 0 1 = Some nu
           ∧ (nv < nu)%Q.
Proof.
  destruct (normalize_order [[1; 3]]%Q 0 0 0 1 1 3) as (nv & nu & Hnv & Hnu & _ & _ & _ & _ & _ & Hlt).
  - done.
  - done.
  - by vm_compute.
  - exists nv, nu. split; [done|]. split; [done|]. apply Hlt. by vm_compute.
Defined.

(** X5: on a map whose least value is 0 and whose greatest value is 1,
    normalisation divides every value by [1 + 1e-8]: it lowers a value by
    at most [1e-8] and never raises it. *)
Theorem normalize_unit_range (raw : ScoreMap) (by_ bx : Z) (v : Q) :
  least raw 0 → greatest raw 1 → entry raw by_ bx = Some v →
  ∃ n, entry (normalize raw) by_ bx = Some n
       ∧ (n == v / (1 + eps))%Q ∧ (0 <= v - n <= eps)%Q.
Proof.
  intros H0 H1 Hv.
  destruct (normalize_entry raw by_ bx v Hv) as (n & Hn & (mn & mx & Hmn & Hmx & He) & _).
  exists n. split; [done|].
  assert (Heq : (n == v / (1 + eps))%Q).
  { rewrite He, (least_unique raw mn 0 Hmn H0), (greatest_unique raw mx 1 Hmx H1).
    unfold eps. field. }
  split; [done|].
  assert (Hprod : (n * (1 + eps) == v)%Q).
  { rewrite Heq. unfold eps. field. }
  pose proof (proj2 H0 v (entry_elem_of _ _ _ _ Hv)) as Hv0.
  pose proof (proj2 H1 v (entry_elem_of _ _ _ _ Hv)) as Hv1.
  unfold eps in *. lra.
Qed.

(** On the map [[0; 1/2; 1]]. *)
Lemma normalize_unit_range_witness :
  ∃ n, entry (normalize [[0; 1 # 2; 1]]%Q) 0 1 = Some n ∧ (0 <= (1 # 2) - n <= eps)%Q.
Proof.
  destruct (normalize_unit_range [[0; 1 # 2; 1]]%Q 0 1 (1 # 2)) as (n & Hn & _ & Hb).
  - split.
    + apply list_elem_of_In. vm_compute. tauto.
    + intros u Hu. vm_compute in Hu.
      repeat (apply elem_of_cons in Hu as [->|Hu]; [by vm_compute|]).
      by apply elem_of_nil in Hu.
  - split.
    + apply list_elem_of_In. vm_compute. tauto.
    + intros u Hu. vm_compute in Hu.
      repeat (apply elem_of_cons in Hu as [->|Hu]; [by vm_compute|]).
      by apply elem_of_nil in Hu.
  - done.
  - by exists n.
Defined.

(** * Further properties of the detectors *)

Lemma sumZ_bounds (f : Z → Z) (s n lo hi : Z) :
  0 ≤ n → (∀ i, s ≤ i < s + n → lo ≤ f i ≤ hi) →
  lo * n ≤ sumZ f s n ≤ hi * n.
Proof.
  intros Hn. replace n with (Z.of_nat (Z.to_nat n)) by lia.
  generalize (Z.to_nat n). clear. intros k. revert s.
  induction k as [|k IH]; intros s Hf.
  - rewrite sumZ_nil by lia. lia.
  - rewrite sumZ_cons by lia.
    replace (Z.of_nat (S k) - 1) with (Z.of_nat k) by lia.
    pose proof (Hf s ltac:(lia)). pose proof (IH (s + 1) ltac:(intros; apply Hf; lia)). nia.
Qed.

Lemma sumZ_nonneg (f : Z → Z) (s n : Z) :
  (∀ i, s ≤ i < s + n → 0 ≤ f i) → 0 ≤ sumZ f s n.
Proof.
  destruct (Z.le_gt_cases n 0) as [?|Hn]; [intros; by rewrite sumZ_nil|].
  replace n with (Z.of_nat (Z.to_nat n)) by lia.
  generalize (Z.to_nat n). clear. intros k. revert s.
  induction k as [|k IH]; intros s Hnn.
  - rewrite sumZ_nil by lia. lia.
  - rewrite sumZ_cons by lia. replace (Z.of_nat (S k) - 1) with (Z.of_nat k) by lia.
    pose proof (Hnn s ltac:(lia)).
    pose proof (IH (s + 1) ltac:(intros; apply Hnn; lia)). lia.
Qed.

Lemma sumZ_zero_iff (f : Z → Z) (s n : Z) :
  (∀ i, s ≤ i < s + n → 0 ≤ f i) →
  sumZ f s n = 0 ↔ ∀ i, s ≤ i < s + n → f i = 0.
Proof.
  intros Hnn. split.
  - destruct (Z.le_gt_cases n 0) as [?|Hn]; [intros; lia|].
    revert Hnn. replace n with (Z.of_nat (Z.to_nat n)) by lia.
    generalize (Z.to_nat n). clear. intros k. revert s.
    induction k as [|k IH]; intros s Hnn Hsum i Hi; [lia|].
    rewrite sumZ_cons in Hsum by lia.
    replace (Z.of_nat (S k) - 1) with (Z.of_nat k) in Hsum by lia.
    pose proof (Hnn s ltac:(lia)).
    pose proof (sumZ_nonneg f (s + 1) (Z.of_nat k) ltac:(intros; apply Hnn; lia)).
    destruct (Z.eq_dec i s) as [->|Hne]; [lia|].
    apply (IH (s + 1)); [intros; apply Hnn; lia|lia|lia].
  - intros Hall. rewrite (sumZ_ext _ (λ _, 0)) by done. apply sumZ_zero.
Qed.

Lemma red_byte (data : list Z) (w py px_ : Z) :
  Forall (λ b, 0 ≤ b ≤ 255) data → 0 ≤ red data w py px_ ≤ 255.
Proof.
  intros Hall. unfold red, at_index.
  destruct (0 <=? (py * w + px_) * 4); simpl; [|lia].
  destruct (data !! Z.to_nat ((py * w + px_) * 4)) as [b|] eqn:Hb; simpl; [|lia].
  rewrite Forall_forall in Hall. apply Hall. by eapply list_elem_of_lookup_2.
Qed.

Lemma Qdiv_inject_Z_zero (a b : Z) : 0 < b → (inject_Z a / inject_Z b == 0)%Q ↔ a = 0.
Proof.
  intros Hb. split.
  - intros Hz.
    assert (Ha : (inject_Z a == 0)%Q).
    { setoid_replace (inject_Z a) with (inject_Z a / inject_Z b * inject_Z b)%Q
        using relation Qeq by (field; apply inject_Z_nonzero; lia).
      rewrite Hz. ring. }
    unfold Qeq in Ha. simpl in Ha. lia.
  - intros ->. unfold Qdiv. apply Qmult_0_l.
Qed.

(** X6: the ELA score of a block is 0 exactly when the red byte of every pixel
    of its clipped region came back unchanged: a difference confined to
    the region of one block leaves the score of every other block at 0. *)
Theorem ela_isolation (origData newData : list Z) (w h blockSize : Z) :
  Z.of_nat (length origData) = 4 * w * h →
  Z.of_nat (length newData) = 4 * w * h →
  0 ≤ w → 0 ≤ h → 0 < blockSize →
  ∃ em, elaMap origData newData w h blockSize = Some em
        ∧ ∀ by_ bx, in_grid w h blockSize by_ bx →
            ∃ e, entry em by_ bx = Some e
                 ∧ ((e == 0)%Q ↔
                    ∀ py px_,
                      by_ * blockSize ≤ py < by_ * blockSize + hBlk h blockSize by_ →
                      bx * blockSize ≤ px_ < bx * blockSize + wBlk w blockSize bx →
                      red origData w py px_ = red newData w py px_).
Proof.
  intros Ho Hn Hw Hh Hb. rewrite elaMap_tabulate by done.
  eexists. split; [done|]. intros by_ bx [Hby Hbx].
  rewrite entry_tabulate by done. eexists. split; [done|].
  unfold ela_score. rewrite Qdiv_inject_Z_zero by nia.
  unfold red_difference. rewrite sumZ_zero_iff.
  - split.
    + intros Hrows py px_ Hpy Hpx. specialize (Hrows py Hpy).
      rewrite sumZ_zero_iff in Hrows by (intros; lia).
      specialize (Hrows px_ Hpx). lia.
    + intros Hsame py Hpy. apply sumZ_zero_iff; [intros; lia|].
      intros px_ Hpx. rewrite (Hsame py px_) by done. lia.
  - intros py _. apply sumZ_nonneg. intros; lia.
Qed.

(** On a 33 by 1 image: whatever the round trip gives back, a zero score
    of the partial block means that its one pixel is unchanged. *)
Lemma ela_isolation_witness :
  ∃ em e, elaMap (rgba 33 1 (λ _ _, 7)) (rgba 33 1 (λ _ _, 8)) 33 1 32 = Some em
          ∧ entry em 0 1 = Some e
          ∧ ((e == 0)%Q → red (rgba 33 1 (λ _ _, 7)) 33 0 32 = red (rgba 33 1 (λ _ _, 8)) 33 0 32).
Proof.
  destruct (ela_isolation (rgba 33 1 (λ _ _, 7)) (rgba 33 1 (λ _ _, 8)) 33 1 32)
    as (em & Hem & Hblocks).
  - by vm_compute.
  - by vm_compute.
  - lia.
  - lia.
  - lia.
  - destruct (Hblocks 0 1) as (e & He & Hiff); [by vm_compute|].
    exists em, e. split; [done|]. split; [done|].
    intros Hz. apply (proj1 Hiff Hz); by vm_compute.
Defined.

Lemma region_sum_bounds (f : Z → Z) (m : Mat) (x y wB hB lo hi : Z) :
  0 ≤ wB → 0 ≤ hB →
  (∀ i j, y ≤ i < y + hB → x ≤ j < x + wB → lo ≤ f (px m i j) ≤ hi) →
  lo * (hB * wB) ≤ region_sum f m x y wB hB ≤ hi * (hB * wB).
Proof.
  intros Hw Hh Hf. unfold region_sum.
  destruct (sumZ_bounds (λ i, sumZ (λ j, f (px m i j)) x wB) y hB (lo * wB) (hi * wB) Hh).
  - intros i Hi. apply sumZ_bounds; [done|]. intros j Hj. by apply Hf.
  - lia.
Qed.

Lemma Qdiv_inject_Z_bounds (a b lo hi : Z) :
  0 < b → lo * b ≤ a ≤ hi * b →
  (inject_Z lo <= inject_Z a / inject_Z b <= inject_Z hi)%Q.
Proof.
  intros Hb [Hlo Hhi].
  assert (Hb' : (0 < inject_Z b)%Q) by (rewrite Zlt_Qlt in Hb; exact Hb).
  split.
  - apply Qle_shift_div_l; [done|]. rewrite <- inject_Z_mult, <- Zle_Qle. done.
  - apply Qle_shift_div_r; [done|]. rewrite <- inject_Z_mult, <- Zle_Qle. done.
Qed.

(** X7: with bytes in [0, 255] the ELA score of a block lies between 0 and
    255; for a partial block it is at most 255 times the share of the
    block that lies inside the image. *)
Theorem ela_bounds (origData newData : list Z) (w h blockSize : Z) :
  Z.of_nat (length origData) = 4 * w * h →
  Z.of_nat (length newData) = 4 * w * h →
  Forall (λ b, 0 ≤ b ≤ 255) origData → Forall (λ b, 0 ≤ b ≤ 255) newData →
  0 ≤ w → 0 ≤ h → 0 < blockSize →
  ∃ em, elaMap origData newData w h blockSize = Some em
        ∧ ∀ by_ bx, in_grid w h blockSize by_ bx →
            ∃ e, entry em by_ bx = Some e
                 ∧ (0 <= e <= 255)%Q
                 ∧ (e * inject_Z (blockSize * blockSize)
                    <= inject_Z (255 * (hBlk h blockSize by_ * wBlk w blockSize bx)))%Q.
Proof.
  intros Ho Hn Hob Hnb Hw Hh Hb. rewrite elaMap_tabulate by done.
  eexists. split; [done|]. intros by_ bx [Hby Hbx].
  rewrite entry_tabulate by done. eexists. split; [done|].
  destruct (block_extent h blockSize by_ Hb Hby) as (Hy & HhB & _).
  destruct (block_extent w blockSize bx Hb Hbx) as (Hx & HwB & _).
  change (hBlk w blockSize bx) with (wBlk w blockSize bx) in HwB.
  unfold ela_score, red_difference.
  set (hB := hBlk h blockSize by_) in *. set (wB := wBlk w blockSize bx) in *.
  assert (Hsum : 0 * (hB * wB)
                 ≤ sumZ (λ py, sumZ (λ px_, Z.abs (red origData w py px_ - red newData w py px_))
                                  (bx * blockSize) wB) (by_ * blockSize) hB
                 ≤ 255 * (hB * wB)).
  { destruct (sumZ_bounds
                (λ py, sumZ (λ px_, Z.abs (red origData w py px_ - red newData w py px_))
                         (bx * blockSize) wB) (by_ * blockSize) hB (0 * wB) (255 * wB)
                ltac:(lia)); [|nia].
    intros py _. apply sumZ_bounds; [lia|]. intros px_ _.
    pose proof (red_byte origData w py px_ Hob).
    pose proof (red_byte newData w py px_ Hnb). lia. }
  set (S := sumZ _ _ _) in *.
  assert (HB : 0 < blockSize * blockSize) by nia.
  split.
  - apply (Qdiv_inject_Z_bounds S (blockSize * blockSize) 0 255 HB). nia.
  - setoid_replace (inject_Z S / inject_Z (blockSize * blockSize)
                    * inject_Z (blockSize * blockSize))%Q
      with (inject_Z S) using relation Qeq by (field; apply inject_Z_nonzero; lia).
    rewrite <- Zle_Qle. lia.
Qed.

(** On a 33 by 1 image. *)
Lemma ela_bounds_witness :
  ∃ em e, elaMap (rgba 33 1 (λ _ _, 7)) (rgba 33 1 (λ _ _, 8)) 33 1 32 = Some em
          ∧ entry em 0 1 = Some e ∧ (0 <= e <= 255)%Q.
Proof.
  destruct (ela_bounds (rgba 33 1 (λ _ _, 7)) (rgba 33 1 (λ _ _, 8)) 33 1 32)
    as (em & Hem & Hblocks).
  - by vm_compute.
  - by vm_compute.
  - apply Forall_forall. intros b Hb. apply list_elem_of_bind in Hb as (py & Hb & _).
    apply list_elem_of_bind in Hb as (px_ & Hb & _).
    repeat (apply elem_of_cons in Hb as [->|Hb]; [lia|]). by apply elem_of_nil in Hb.
  - apply Forall_forall. intros b Hb. apply list_elem_of_bind in Hb as (py & Hb & _).
    apply list_elem_of_bind in Hb as (px_ & Hb & _).
    repeat (apply elem_of_cons in Hb as [->|Hb]; [lia|]). by apply elem_of_nil in Hb.
  - lia.
  - lia.
  - lia.
  - destruct (Hblocks 0 1) as (e & He & Hrange & _); [by vm_compute|].
    by exists em, e.
Defined.

Lemma region_mean_bounds (f : Z → Z) (m : Mat) (x y wB hB lo hi : Z) :
  0 < wB → 0 < hB →
  (∀ i j, y ≤ i < y + hB → x ≤ j < x + wB → lo ≤ f (px m i j) ≤ hi) →
  (inject_Z lo <= region_mean f m x y wB hB <= inject_Z hi)%Q.
Proof.
  intros Hw Hh Hf. unfold region_mean.
  apply Qdiv_inject_Z_bounds; [nia|].
  apply region_sum_bounds; (done || lia).
Qed.

(** X9: the score of the variance detector lies between -65025 and 255, and
    is negative on every block whose samples are all 16 or more: the
    squares are capped at 255 while the squared mean is not. *)
Theorem variance_score_bounds (src : Mat) (w h blockSize : Z) :
  has_size src w h → is_u8 src → 0 ≤ w → 0 ≤ h → 0 < blockSize →
  ∃ vm, varMap src w h blockSize = Some vm
        ∧ ∀ by_ bx, in_grid w h blockSize by_ bx →
            ∃ s, entry vm by_ bx = Some s
                 ∧ (-65025 <= s <= 255)%Q
                 ∧ ((∀ i j, by_ * blockSize ≤ i < by_ * blockSize + hBlk h blockSize by_ →
                            bx * blockSize ≤ j < bx * blockSize + wBlk w blockSize bx →
                            16 ≤ px src i j) →
                    (s <= -1)%Q).
Proof.
  intros Hsize Hu8 Hw Hh Hb. rewrite varMap_tabulate by done.
  eexists. split; [done|]. intros by_ bx [Hby Hbx].
  rewrite entry_tabulate by done. eexists. split; [done|].
  destruct (block_extent h blockSize by_ Hb Hby) as (Hy & HhB & _).
  destruct (block_extent w blockSize bx Hb Hbx) as (Hx & HwB & _).
  change (hBlk w blockSize bx) with (wBlk w blockSize bx) in HwB.
  unfold saturated_variance.
  set (hB := hBlk h blockSize by_) in *. set (wB := wBlk w blockSize bx) in *.
  pose proof (region_mean_bounds (λ v, saturate (v * v)) src (bx * blockSize)
                (by_ * blockSize) wB hB 0 255 ltac:(lia) ltac:(lia)
                ltac:(intros; unfold saturate; lia)) as HmeanSq.
  pose proof (region_mean_bounds (λ v, v) src (bx * blockSize)
                (by_ * blockSize) wB hB 0 255 ltac:(lia) ltac:(lia)
                ltac:(intros; apply Hu8)) as Hmean.
  set (meanSq := region_mean (λ v, saturate (v * v)) src _ _ _ _) in *.
  set (mean := region_mean (λ v, v) src _ _ _ _) in *.
  change (inject_Z 0) with 0%Q in *. change (inject_Z 255) with 255%Q in *.
  split; [split; nra|].
  intros Hbright.
  pose proof (region_mean_bounds (λ v, v) src (bx * blockSize)
                (by_ * blockSize) wB hB 16 255 ltac:(lia) ltac:(lia)) as Hmean'.
  fold mean in Hmean'. change (inject_Z 16) with 16%Q in *.
  destruct Hmean' as [Hlo _].
  { intros i j Hi Hj. split; [by apply Hbright|apply Hu8]. }
  nra.
Qed.

(** On a 2 by 2 image of grey level 200. *)
Lemma variance_score_bounds_witness :
  ∃ vm s, varMap (flat_mat 2 2 200) 2 2 32 = Some vm ∧ entry vm 0 0 = Some s ∧ (s <= -1)%Q.
Proof.
  destruct (variance_score_bounds (flat_mat 2 2 200) 2 2 32) as (vm & Hvm & Hblocks).
  - done.
  - intros i j. simpl. lia.
  - lia.
  - lia.
  - lia.
  - destruct (Hblocks 0 0) as (s & Hs & _ & Hneg); [by vm_compute|].
    exists vm, s. split; [done|]. split; [done|]. apply Hneg. intros i j _ _. simpl. lia.
Defined.

(** X10: on a block whose samples are all at most 15 no square is capped, and
    the score of the variance detector is the population variance of the
    clipped block: mean of the squares minus square of the mean. *)
Theorem variance_of_dark_blocks (src : Mat) (w h blockSize by_ bx : Z) :
  has_size src w h → 0 ≤ w → 0 ≤ h → 0 < blockSize →
  in_grid w h blockSize by_ bx →
  (∀ i j, by_ * blockSize ≤ i < by_ * blockSize + hBlk h blockSize by_ →
          bx * blockSize ≤ j < bx * blockSize + wBlk w blockSize bx →
          0 ≤ px src i j ≤ 15) →
  ∃ vm, varMap src w h blockSize = Some vm
        ∧ entry vm by_ bx
          = Some (population_variance src (bx * blockSize) (by_ * blockSize)
                    (wBlk w blockSize bx) (hBlk h blockSize by_)).
Proof.
  intros Hsize Hw Hh Hb [Hby Hbx] Hdark. rewrite varMap_tabulate by done.
  eexists. split; [done|]. rewrite entry_tabulate by done.
  by rewrite saturated_variance_dark.
Qed.

(** On a 2 by 2 image with the samples 3, 5 / 3, 5. *)
Lemma variance_of_dark_blocks_witness :
  ∃ vm, varMap (mkMat 2 2 (λ _ j, 3 + 2 * Z.min 1 (Z.max 0 j))) 2 2 32 = Some vm
        ∧ entry vm 0 0
          = Some (population_variance (mkMat 2 2 (λ _ j, 3 + 2 * Z.min 1 (Z.max 0 j)))
                    (0 * 32) (0 * 32) (wBlk 2 32 0) (hBlk 2 32 0)).
Proof.
  apply variance_of_dark_blocks.
  - done.
  - lia.
  - lia.
  - lia.
  - by vm_compute.
  - intros i j _ _. simpl. lia.
Defined.







(** X8: when the round trip changes the red byte of every pixel by the same
    amount [e], a full block scores [e] and a partial block only its share
    [e * (clipped area) / blockSize^2]: less than any full block as soon
    as [e] is not 0. *)
Theorem ela_uniform_error (origData newData : list Z) (w h blockSize e : Z) :
  Z.of_nat (length origData) = 4 * w * h →
  Z.of_nat (length newData) = 4 * w * h →
  0 ≤ w → 0 ≤ h → 0 < blockSize →
  (∀ py px_, 0 ≤ py < h → 0 ≤ px_ < w →
     Z.abs (red origData w py px_ - red newData w py px_) = e) →
  ∃ em, elaMap origData newData w h blockSize = Some em
        ∧ ∀ by_ bx, in_grid w h blockSize by_ bx →
            ∃ s, entry em by_ bx = Some s
                 ∧ (s == inject_Z (e * (hBlk h blockSize by_ * wBlk w blockSize bx))
                         / inject_Z (blockSize * blockSize))%Q
                 ∧ (hBlk h blockSize by_ = blockSize → wBlk w blockSize bx = blockSize →
                      (s == inject_Z e)%Q)
                 ∧ (0 < e →
                    hBlk h blockSize by_ < blockSize ∨ wBlk w blockSize bx < blockSize →
                      (s < inject_Z e)%Q).
Proof.
  intros Ho Hn Hw Hh Hb He. rewrite elaMap_tabulate by done.
  eexists. split; [done|]. intros by_ bx [Hby Hbx].
  rewrite entry_tabulate by done. eexists. split; [done|].
  destruct (block_extent h blockSize by_ Hb Hby) as (Hy & HhB & Hyh & _).
  destruct (block_extent w blockSize bx Hb Hbx) as (Hx & HwB & Hxw & _).
  change (hBlk w blockSize bx) with (wBlk w blockSize bx) in *.
  unfold ela_score.
  set (hB := hBlk h blockSize by_) in *. set (wB := wBlk w blockSize bx) in *.
  assert (Hsum : red_difference origData newData w (bx * blockSize) (by_ * blockSize) wB hB
                 = e * (hB * wB)).
  { unfold red_difference. rewrite (sumZ_ext _ (λ _, e * wB)).
    - rewrite sumZ_const by lia. lia.
    - intros py Hpy. rewrite (sumZ_ext _ (λ _, e)).
      + rewrite sumZ_const by lia. lia.
      + intros px_ Hpx. apply He; lia. }
  rewrite Hsum.
  assert (HB : (0 < inject_Z (blockSize * blockSize))%Q).
  { rewrite <- (Zlt_Qlt 0). nia. }
  split; [reflexivity|]. split.
  - intros -> ->. rewrite !inject_Z_mult. field. apply inject_Z_nonzero. lia.
  - intros Hepos Hpartial. apply Qlt_shift_div_r; [done|].
    rewrite <- inject_Z_mult, <- Zlt_Qlt.
    assert (Harea : hB * wB < blockSize * blockSize).
    { destruct Hpartial.
      - apply Z.le_lt_trans with (hB * blockSize); nia.
      - apply Z.le_lt_trans with (blockSize * wB); nia. }
    by apply Z.mul_lt_mono_pos_l.
Qed.

(** On a 3 by 1 image whose recompression is off by one everywhere,
    block size 2. *)
Lemma ela_uniform_error_witness :
  ∃ em s, elaMap (rgba 3 1 (λ _ _, 7)) (rgba 3 1 (λ _ _, 8)) 3 1 2 = Some em
          ∧ entry em 0 1 = Some s ∧ (s < inject_Z 1)%Q.
Proof.
  destruct (ela_uniform_error (rgba 3 1 (λ _ _, 7)) (rgba 3 1 (λ _ _, 8)) 3 1 2 1)
    as (em & Hem & Hblocks).
  - by vm_compute.
  - by vm_compute.
  - lia.
  - lia.
  - lia.
  - intros py px_ Hpy Hpx. assert (py = 0) as -> by lia.
    assert (px_ = 0 ∨ px_ = 1 ∨ px_ = 2) as [-> | [-> | ->]] by lia; by vm_compute.
  - destruct (Hblocks 0 1) as (s & Hs & _ & _ & Hlt); [by vm_compute|].
    exists em, s. split; [done|]. split; [done|].
    apply Hlt; [lia|]. left. by vm_compute.
Defined.

(** X12: where the denoised image is nowhere darker than the grey image (as
    when the filter changes nothing), the subtraction leaves a residual
    of 0 everywhere and the PRNU map is all zero. *)
Theorem residual_clipped_at_zero (cv : OpenCV) (f : Frame) (blockSize : Z) :
  well_formed f → 0 < blockSize →
  has_size (denoise cv (gray f)).1 (width f) (height f) →
  (∀ i j, 0 ≤ i < height f → 0 ≤ j < width f →
     px (gray f) i j ≤ px (denoise cv (gray f)).1 i j) →
  ∃ vm gm pm, (detect cv f blockSize).1 = Some (vm, gm, pm) ∧ constant_map pm 0.
Proof.
  intros Hwf Hb Hden Hle.
  destruct (detect_total cv f blockSize Hwf Hb Hden) as (residual & _ & Hrsize & Hres & Hdet).
  rewrite Hdet. simpl. do 3 eexists. split; [done|].
  apply constant_tabulate. intros by_ bx Hby Hbx.
  rewrite (block_uniform residual (width f) (height f) blockSize 0); try done.
  intros i j Hi Hj. rewrite Hres. destruct Hrsize as [Hr1 Hr2].
  specialize (Hle i j ltac:(lia) ltac:(lia)). unfold saturate. lia.
Qed.

(** On a 3 by 2 ramp with a filter that brightens every sample by 5. *)
Lemma residual_clipped_at_zero_witness :
  ∃ vm gm pm,
    (detect (mkOpenCV None (λ m _ _ _ _, mkMat (rows m) (cols m) (λ i j, px m i j + 5)))
       (mkFrame 3 2 (ramp 3 2) (rgba 3 2 (λ _ _, 9))) 32).1 = Some (vm, gm, pm)
    ∧ constant_map pm 0.
Proof.
  apply residual_clipped_at_zero.
  - split; [simpl; lia|]. split; [simpl; lia|]. split; [done|]. split.
    + intros i j. unfold ramp, saturate. simpl. lia.
    + by vm_compute.
  - lia.
  - done.
  - intros i j _ _. simpl. lia.
Defined.

(** * Further properties of the overlay *)

Lemma elem_of_highlight (composite : ScoreMap) (t : option Q) (blockSize : Z) (d : DrawCmd) :
  d ∈ highlight composite t blockSize →
  ∃ by_ bx score,
    d = fillRect (bx * blockSize) (by_ * blockSize) blockSize blockSize
    ∧ entry composite by_ bx = Some score ∧ ge_thr score t = true.
Proof.
  unfold highlight. rewrite elem_of_forEach.
  intros (k & r & Hk & Hd). apply elem_of_forEach in Hd as (j & s & Hj & Hd).
  destruct (ge_thr s t) eqn:Hge; [|by apply elem_of_nil in Hd].
  apply list_elem_of_singleton in Hd as ->.
  exists (Z.of_nat k), (Z.of_nat j), s. rewrite !Z.add_0_l. split; [done|].
  split; [|done]. unfold entry.
  leb_true 0 (Z.of_nat k). leb_true 0 (Z.of_nat j). simpl.
  by rewrite !Nat2Z.id, Hk.
Qed.

(** X13: the overlay of a well-formed frame is the image, the fill style, and
    then only rectangles of blocks of the grid whose value reaches the
    threshold: each starts inside the image and is [blockSize] wide and
    high, also for a partial block, where it reaches beyond the image. *)
Theorem overlay_rectangles (cv : OpenCV) (src : string) (f : Frame) (newData : list Z)
    (blockSize : Z) (p : Q) :
  well_formed f → Z.of_nat (length newData) = 4 * width f * height f → 0 < blockSize →
  has_size (denoise cv (gray f)).1 (width f) (height f) →
  ∃ o rects,
    (analysis cv src f newData blockSize p).1 = Some o
    ∧ drawn o = [drawImage src; fillStyle "rgba(255,0,0,0.4)"] ++ rects
    ∧ ∀ d, d ∈ rects →
        ∃ by_ bx score,
          d = fillRect (bx * blockSize) (by_ * blockSize) blockSize blockSize
          ∧ in_grid (width f) (height f) blockSize by_ bx
          ∧ entry (comp o) by_ bx = Some score
          ∧ ge_thr score (threshold o) = true
          ∧ 0 ≤ bx * blockSize < width f ∧ 0 ≤ by_ * blockSize < height f
          ∧ (wBlk (width f) blockSize bx < blockSize → width f < bx * blockSize + blockSize)
          ∧ (hBlk (height f) blockSize by_ < blockSize → height f < by_ * blockSize + blockSize).
Proof.
  intros Hwf Hn Hb Hden.
  destruct (analysis_total cv src f newData blockSize p Hwf Hn Hb Hden)
    as (maps & o & _ & Hfin & Ho & Hshape).
  exists o, (highlight (comp o) (threshold o) blockSize).
  split; [by rewrite Ho|]. split.
  - destruct maps as [[vm gm] pm]. unfold finish, fuse in Hfin.
    destruct (elaMap _ _ _ _ _); simpl in Hfin; [|done].
    destruct (composite _ _ _ _); simpl in Hfin; [|done].
    by injection Hfin as <-.
  - intros d Hd. apply elem_of_highlight in Hd as (by_ & bx & score & -> & Hscore & Hge).
    destruct (entry_Some_range _ _ _ _ _ _ Hshape Hscore) as [Hby Hbx].
    destruct (block_extent (height f) blockSize by_ Hb Hby) as (Hy & HhB & Hyh & Hyp).
    destruct (block_extent (width f) blockSize bx Hb Hbx) as (Hx & HwB & Hxw & Hxp).
    change (hBlk (width f) blockSize bx) with (wBlk (width f) blockSize bx) in *.
    exists by_, bx, score. split; [done|]. split; [by split|].
    split; [done|]. split; [done|]. split; [lia|]. split; [lia|]. split; lia.
Qed.

(** On a 3 by 2 ramp. *)
Lemma overlay_rectangles_witness :
  ∃ o rects,
    (analysis opencv_js "a.jpg" (mkFrame 3 2 (ramp 3 2) (rgba 3 2 (λ _ _, 9)))
       (rgba 3 2 (λ _ _, 8)) 32 80).1 = Some o
    ∧ drawn o = [drawImage "a.jpg"; fillStyle "rgba(255,0,0,0.4)"] ++ rects.
Proof.
  destruct (overlay_rectangles opencv_js "a.jpg"
              (mkFrame 3 2 (ramp 3 2) (rgba 3 2 (λ _ _, 9))) (rgba 3 2 (λ _ _, 8)) 32 80)
    as (o & rects & Ho & Hdrawn & _).
  - split; [simpl; lia|]. split; [simpl; lia|]. split; [done|]. split.
    + intros i j. unfold ramp, saturate. simpl. lia.
    + by vm_compute.
  - by vm_compute.
  - lia.
  - done.
  - by exists o, rects.
Defined.

(** * Further properties of the callbacks *)

Lemma step_loading (cv : OpenCV) (c : Component) (ev : Event) :
  (loading c = false → loading (step cv c ev) = false)
  ∧ ((∀ i newData, ev ≠ recompressed i newData) →
       loading (step cv c ev) = loading c).
Proof.
  destruct ev as [p|i f|i|i newData]; simpl.
  - done.
  - destruct (pending c !! i) as [[p|p f' maps]|]; [|done..].
    destruct (detect cv f (blockSize p)) as [maps msgs]. done.
  - destruct (pending c !! i) as [[p|p f' maps]|]; done.
  - split; [|intros Hne; by destruct (Hne i newData)].
    destruct (pending c !! i) as [[p|p f' maps]|]; [done| |done].
    destruct (finish _ _ _ _ _ _); done.
Qed.

(** X14: [loading] is only ever cleared: once a round trip has completed it
    stays [false] whatever follows, also while later images are analysed;
    and no event other than a completed round trip changes it, so a failed
    image load or a new source alone leaves it as it is. *)
Theorem loading_only_cleared (cv : OpenCV) (c : Component) (evs : list Event) :
  (loading c = false → loading (run cv c evs) = false)
  ∧ ((∀ ev, ev ∈ evs → ∀ i newData, ev ≠ recompressed i newData) →
       loading (run cv c evs) = loading c).
Proof.
  unfold run. revert c. induction evs as [|ev evs IH]; intros c; simpl; [done|].
  destruct (step_loading cv c ev) as [Hfalse Hsame].
  destruct (IH (step cv c ev)) as [IHfalse IHsame]. split.
  - intros Hc. by apply IHfalse, Hfalse.
  - intros Hnone. rewrite IHsame.
    + apply Hsame. apply Hnone. by left.
    + intros ev' Hev'. apply Hnone. by right.
Qed.

(** After the overlay of "a.jpg", a new source and a failed load. *)
Lemma loading_only_cleared_witness :
  let c := run opencv_js (mounted props_a)
             (replaced_in_flight ++ [recompressed 0 (rgba 1 1 (λ _ _, 10))]) in
  loading c = false ∧ loading (run opencv_js c [render props_b; image_failed 1]) = false.
Proof.
  intros c. assert (Hc : loading c = false) by (by vm_compute).
  split; [done|].
  exact (proj1 (loading_only_cleared opencv_js c [render props_b; image_failed 1]) Hc).
Defined.


(** * The earlier variant: full blocks only *)

Lemma blocksY_spec (h blockSize by_ : Z) :
  0 < blockSize → 0 ≤ h →
  0 ≤ blocksY h blockSize ≤ byCount h blockSize
  ∧ (0 ≤ by_ < blocksY h blockSize →
       0 ≤ by_ * blockSize ∧ by_ * blockSize + blockSize ≤ h
       ∧ hBlk h blockSize by_ = blockSize)
  ∧ (h mod blockSize = 0 → blocksY h blockSize = byCount h blockSize).
Proof.
  intros Hb Hh. unfold blocksY, byCount, hBlk. rewrite Math_floor_div.
  destruct (Math_ceil_spec h blockSize Hb) as [Hlo Hhi].
  generalize dependent (Math_ceil (inject_Z h / inject_Z blockSize)). intros n Hlo Hhi.
  pose proof (Z.div_mod h blockSize ltac:(lia)) as Hdm.
  pose proof (Z.mod_pos_bound h blockSize Hb) as Hmod.
  generalize dependent (h / blockSize). generalize dependent (h mod blockSize).
  intros r Hr q Hq. repeat split; nia.
Qed.

Lemma block_variance_floor_inside (src : Mat) (w h blockSize by_ bx : Z) :
  has_size src w h → 0 < blockSize → 0 ≤ w → 0 ≤ h →
  0 ≤ by_ < blocksY h blockSize → 0 ≤ bx < blocksX w blockSize →
  block_variance_floor src blockSize by_ bx
  = Some (saturated_variance src (bx * blockSize) (by_ * blockSize)
            (wBlk w blockSize bx) (hBlk h blockSize by_)).
Proof.
  intros Hsize Hb Hw Hh Hby Hbx.
  destruct (blocksY_spec h blockSize by_ Hb Hh) as ((_ & Hbyc) & Hfull & _).
  destruct (blocksY_spec w blockSize bx Hb Hw) as ((_ & Hbxc) & Hfullx & _).
  destruct (Hfull Hby) as (_ & _ & HhB). destruct (Hfullx Hbx) as (_ & _ & HwB).
  change (hBlk w blockSize bx) with (wBlk w blockSize bx) in HwB.
  rewrite <- (block_variance_inside src w h blockSize by_ bx Hsize Hb)
    by (unfold blocksX, bxCount, blocksY, byCount in *; lia).
  unfold block_variance_floor, block_variance.
  fold (hBlk h blockSize by_). fold (wBlk w blockSize bx). by rewrite HhB, HwB.
Qed.

Lemma block_ela_floor_score (d1 d2 : list Z) (w h blockSize by_ bx : Z) :
  Z.of_nat (length d1) = 4 * w * h → Z.of_nat (length d2) = 4 * w * h →
  0 < blockSize → 0 ≤ w → 0 ≤ h →
  0 ≤ by_ < blocksY h blockSize → 0 ≤ bx < blocksX w blockSize →
  block_ela_floor d1 d2 w blockSize by_ bx = Some (ela_score d1 d2 w h blockSize by_ bx).
Proof.
  intros H1 H2 Hb Hw Hh Hby Hbx.
  destruct (blocksY_spec h blockSize by_ Hb Hh) as (_ & Hfull & _).
  destruct (blocksY_spec w blockSize bx Hb Hw) as (_ & Hfullx & _).
  destruct (Hfull Hby) as (Hy & Hyh & HhB). destruct (Hfullx Hbx) as (Hx & Hxw & HwB).
  change (hBlk w blockSize bx) with (wBlk w blockSize bx) in HwB.
  unfold block_ela_floor, ela_score. rewrite HhB, HwB, !for_range_unit.
  set (d := λ py px_, Z.abs (red d1 w py px_ - red d2 w py px_)).
  rewrite (forM_sum _ (λ y, sumZ (λ x, d (by_ * blockSize + y) (bx * blockSize + x))
                              0 blockSize)).
  2:{ intros y s Hy'.
      apply (forM_sum _ (λ x, d (by_ * blockSize + y) (bx * blockSize + x))).
      intros x s' Hx'. apply elem_of_seqZ in Hy', Hx'. unfold ela_pixel_floor.
      rewrite (at_index_red d1 w h), (at_index_red d2 w h) by (done || lia). done. }
  simpl. f_equal.
  apply (f_equal (λ s, (inject_Z s / inject_Z (blockSize * blockSize))%Q)).
  rewrite Z.add_0_l.
  fold (sumZ (λ y, sumZ (λ x, d (by_ * blockSize + y) (bx * blockSize + x)) 0 blockSize)
             0 blockSize).
  unfold red_difference. fold d.
  rewrite <- (sumZ_shift (λ py, sumZ (λ px_, d py px_) (bx * blockSize) blockSize)).
  apply sumZ_ext. intros y _.
  by rewrite <- (sumZ_shift (λ px_, d (by_ * blockSize + y) px_)).
Qed.

(** X17: the variance and ELA loops of the earlier variant read every block
    inside the image, so that nothing throws and no read is [undefined];
    their maps hold, for every full block, the score the clipping variant
    gives to that block, and have no entry for the trailing partial
    blocks.  When the block size divides both sides of the image the two
    variants compute the same maps. *)
Theorem floor_variant_full_blocks (gray : Mat) (d1 d2 : list Z) (w h blockSize : Z) :
  has_size gray w h →
  Z.of_nat (length d1) = 4 * w * h → Z.of_nat (length d2) = 4 * w * h →
  0 ≤ w → 0 ≤ h → 0 < blockSize →
  ∃ vmf emf vm em,
    varMap_floor gray w h blockSize = Some vmf
    ∧ elaMap_floor d1 d2 w h blockSize = Some emf
    ∧ varMap gray w h blockSize = Some vm
    ∧ elaMap d1 d2 w h blockSize = Some em
    ∧ shape (blocksY h blockSize) (blocksX w blockSize) vmf
    ∧ shape (blocksY h blockSize) (blocksX w blockSize) emf
    ∧ blocksY h blockSize ≤ byCount h blockSize
    ∧ blocksX w blockSize ≤ bxCount w blockSize
    ∧ (∀ by_ bx, 0 ≤ by_ < blocksY h blockSize → 0 ≤ bx < blocksX w blockSize →
         is_Some (entry vmf by_ bx)
         ∧ entry vmf by_ bx = entry vm by_ bx ∧ entry emf by_ bx = entry em by_ bx)
    ∧ (∀ by_ bx, blocksY h blockSize ≤ by_ ∨ blocksX w blockSize ≤ bx →
         entry vmf by_ bx = None ∧ entry emf by_ bx = None)
    ∧ (h mod blockSize = 0 → w mod blockSize = 0 → vmf = vm ∧ emf = em).
Proof.
  intros Hsize H1 H2 Hw Hh Hb.
  destruct (blocksY_spec h blockSize 0 Hb Hh) as ((Hy0 & Hyc) & _ & Hydiv).
  destruct (blocksY_spec w blockSize 0 Hb Hw) as ((Hx0 & Hxc) & _ & Hxdiv).
  change (blocksY w blockSize) with (blocksX w blockSize) in *.
  change (byCount w blockSize) with (bxCount w blockSize) in *.
  rewrite varMap_tabulate, elaMap_tabulate by done.
  unfold varMap_floor, elaMap_floor.
  rewrite (for_blocks_tabulate _ _ _
             (λ by_ bx, saturated_variance gray (bx * blockSize) (by_ * blockSize)
                          (wBlk w blockSize bx) (hBlk h blockSize by_)))
    by (done || intros; by apply (block_variance_floor_inside gray w h)).
  rewrite (for_blocks_tabulate _ _ _ (ela_score d1 d2 w h blockSize))
    by (done || intros; by apply block_ela_floor_score).
  do 4 eexists. repeat (split; [reflexivity|]).
  split; [by apply shape_tabulate|]. split; [by apply shape_tabulate|].
  split; [done|]. split; [done|]. split; [|split].
  - intros by_ bx Hby Hbx. rewrite !entry_tabulate by lia. by split; [eexists|].
  - intros by_ bx Hout.
    assert (Hnone : ∀ f, entry (tabulate (blocksY h blockSize) (blocksX w blockSize) f)
                           by_ bx = None).
    { intros f. destruct (entry _ by_ bx) as [v|] eqn:Hv; [|done].
      apply (entry_Some_range (blocksY h blockSize) (blocksX w blockSize)) in Hv;
        [lia|by apply shape_tabulate]. }
    by rewrite !Hnone.
  - intros Hhd Hwd. by rewrite (Hydiv Hhd), (Hxdiv Hwd).
Qed.

(** On a 100 by 50 ramp with block size 32: 1 by 3 full blocks out of the
    2 by 4 blocks of the clipping variant. *)
Lemma floor_variant_full_blocks_witness :
  ∃ vmf vm, varMap_floor (ramp 100 50) 100 50 32 = Some vmf
            ∧ varMap (ramp 100 50) 100 50 32 = Some vm
            ∧ entry vmf 0 2 = entry vm 0 2 ∧ entry vmf 1 0 = None ∧ entry vmf 0 3 = None.
Proof.
  destruct (floor_variant_full_blocks (ramp 100 50) (rgba 100 50 (λ _ _, 0))
              (rgba 100 50 (λ _ _, 0)) 100 50 32)
    as (vmf & emf & vm & em & Hvmf & _ & Hvm & _ & _ & _ & _ & _ & Hfull & Hout & _).
  - done.
  - by vm_compute.
  - by vm_compute.
  - lia.
  - lia.
  - lia.
  - exists vmf, vm. split; [done|]. split; [done|].
    split; [apply (Hfull 0 2); by vm_compute|].
    split; [apply (Hout 1 0)|apply (Hout 0 3)]; [left|right]; by vm_compute.
Defined.

(** * Waiting for OpenCV *)

Lemma boot_run_app (b : Boot) (evs evs' : list BootEvent) :
  boot_run b (evs ++ evs') = boot_run (boot_run b evs) evs'.
Proof. apply fold_left_app. Qed.

Lemma boot_step_waiting (b : Boot) (p : Props) (cb : option Props) :
  runtime b = initialising cb →
  boot_step b (effect p)
  = mkBoot (initialising (Some p)) (started b)
      (boot_console b ++ [console_log "[ForensicsOverlay] Waiting for OpenCV"]).
Proof. intros Hb. unfold boot_step. by rewrite Hb. Qed.

Lemma boot_step_ready (b : Boot) (p : Props) :
  runtime b = ready →
  boot_step b (effect p)
  = mkBoot ready (started b ++ [p])
      (boot_console b ++ [console_log "[ForensicsOverlay] OpenCV ready"]).
Proof. intros Hb. unfold boot_step. by rewrite Hb. Qed.

Lemma boot_waiting (b : Boot) (ps : list Props) (cb : option Props) :
  runtime b = initialising cb →
  runtime (boot_run b (effect <$> ps)) = initialising (from_option Some cb (last ps))
  ∧ started (boot_run b (effect <$> ps)) = started b.
Proof.
  revert b cb. induction ps as [|p ps IH]; intros b cb Hb.
  - simpl. by destruct cb.
  - change (boot_run b (effect <$> p :: ps))
      with (boot_run (boot_step b (effect p)) (effect <$> ps)).
    rewrite (boot_step_waiting b p cb Hb).
    destruct (IH (mkBoot (initialising (Some p)) (started b)
                    (boot_console b ++ [console_log "[ForensicsOverlay] Waiting for OpenCV"]))
                  (Some p) eq_refl) as [Hr Hs].
    rewrite Hr, Hs. split; [|done]. f_equal.
    rewrite (last_cons p ps). by destruct (last ps).
Qed.

(** X16: while the runtime of OpenCV is initialising, every run of the effect
    overwrites the stored callback: when the runtime becomes ready, only
    the analysis of the last props is started, once, and the earlier ones
    never are.  Once the runtime is ready, every run of the effect starts
    its analysis at once. *)
Theorem waiting_keeps_last_request (b : Boot) (ps : list Props) (p : Props) :
  (∀ cb, runtime b = initialising cb →
     let b' := boot_run b ((effect <$> ps) ++ [effect p; runtime_initialized]) in
     started b' = started b ++ [p] ∧ runtime b' = ready)
  ∧ (runtime b = ready →
     started (boot_run b (effect <$> ps)) = started b ++ ps).
Proof.
  split.
  - intros cb Hb. simpl. rewrite boot_run_app.
    destruct (boot_waiting b ps cb Hb) as [Hr Hs].
    set (b1 := boot_run b (effect <$> ps)) in *.
    change (boot_run b1 [effect p; runtime_initialized])
      with (boot_step (boot_step b1 (effect p)) runtime_initialized).
    rewrite (boot_step_waiting b1 p _ Hr). simpl. by rewrite Hs.
  - revert b. induction ps as [|q ps IH]; intros b Hb.
    + simpl. by rewrite app_nil_r.
    + change (boot_run b (effect <$> q :: ps))
        with (boot_run (boot_step b (effect q)) (effect <$> ps)).
      rewrite (boot_step_ready b q Hb), IH by done. simpl. by rewrite <- app_assoc.
Qed.

(** Two sources requested while OpenCV initialises. *)
Lemma waiting_keeps_last_request_witness :
  started (boot_run (mkBoot (initialising None) [] [])
             [effect props_a; effect props_b; runtime_initialized]) = [props_b].
Proof.
  exact (proj1 (proj1 (waiting_keeps_last_request (mkBoot (initialising None) [] [])
                         [props_a] props_b) None eq_refl)).
Defined.

(** * The earlier variant: polling for OpenCV *)

Lemma poll_live_safe (s : Poller) : poll_live s → poll_safe s.
Proof.
  unfold poll_live, poll_safe. destruct (script s) as [|[|]|], (polling s); simpl;
    intuition (try lia; try congruence).
Qed.

Lemma poll_step_safe (s : Poller) (ev : PollEvent) : poll_safe s → poll_safe (poll_step s ev).
Proof.
  destruct s as [sc pol n con]. unfold poll_safe.
  destruct ev, sc as [|[|]|], pol; simpl; intuition (try lia; try congruence).
Qed.

Lemma poll_step_live (s : Poller) (ev : PollEvent) :
  ev ≠ cleanup → poll_live s → poll_live (poll_step s ev).
Proof.
  destruct s as [sc pol n con]. unfold poll_live.
  destruct ev, sc as [|[|]|], pol; simpl; intuition (try lia; try congruence).
Qed.

Lemma poll_effect_live (sc : Script) :
  sc ≠ script_initialising true → poll_live (poll_effect (before_effect sc)).
Proof.
  intros Hsc. unfold poll_live, poll_effect, before_effect, init.
  destruct sc as [|[|]|]; simpl; (done || by destruct Hsc).
Qed.

Lemma poll_run_safe (s : Poller) (evs : list PollEvent) :
  poll_safe s → poll_safe (poll_run s evs).
Proof.
  unfold poll_run. revert s. induction evs as [|ev evs IH]; intros s Hs; simpl; [done|].
  by apply IH, poll_step_safe.
Qed.

Lemma poll_run_live (s : Poller) (evs : list PollEvent) :
  cleanup ∉ evs → poll_live s → poll_live (poll_run s evs).
Proof.
  unfold poll_run. revert s. induction evs as [|ev evs IH]; intros s Hnc Hs; simpl; [done|].
  apply IH; [by intros ?; apply Hnc; right|].
  apply poll_step_live; [|done]. intros ->. apply Hnc. by left.
Qed.

(** X18: whatever the order of timer ticks, script load, runtime
    initialisation and cleanup after the effect of the earlier variant has
    run, [run] is started at most once, and never while the script is not
    ready or the interval still running.  A cleanup stops the interval but
    does not withdraw a callback already stored: [run] is then still
    started by the runtime. *)
Theorem polling_starts_at_most_once (sc : Script) (evs : list PollEvent) :
  sc ≠ script_initialising true →
  let s := poll_run (poll_effect (before_effect sc)) evs in
  (runs s ≤ 1)%nat
  ∧ (script s ≠ script_ready → runs s = O)
  ∧ (polling s = true → runs s = O)
  ∧ (script s = script_initialising true →
     runs (poll_run s [cleanup; script_runtime_initialized]) = 1%nat).
Proof.
  intros Hsc s.
  assert (Hsafe : poll_safe s).
  { by apply poll_run_safe, poll_live_safe, poll_effect_live. }
  unfold poll_safe in Hsafe. destruct s as [sc' pol n con]. simpl in *.
  destruct sc' as [|[|]|], pol; simpl; intuition (try lia; try congruence).
Qed.

(** From a missing script, through two ticks, the load and a cleanup. *)
Lemma polling_starts_at_most_once_witness :
  (runs (poll_run (poll_effect (before_effect script_missing))
           [tick; script_executed; tick; cleanup; script_runtime_initialized]) ≤ 1)%nat.
Proof.
  apply (polling_starts_at_most_once script_missing
           [tick; script_executed; tick; cleanup; script_runtime_initialized]).
  discriminate.
Defined.

(** X19: as long as the effect is not cleaned up, the analysis is started
    exactly once: the interval runs while the script is missing; when the
    runtime is ready, [run] has been started or is started by the next
    tick, which stops the interval, and nothing that follows starts it
    again. *)
Theorem polling_starts_once (sc : Script) (evs evs' : list PollEvent) :
  sc ≠ script_initialising true →
  cleanup ∉ evs → cleanup ∉ evs' →
  let s := poll_run (poll_effect (before_effect sc)) evs in
  (script s = script_missing → polling s = true)
  ∧ (script s = script_ready →
     runs (poll_run s (tick :: evs')) = 1%nat
     ∧ polling (poll_run s (tick :: evs')) = false).
Proof.
  intros Hsc Hnc Hnc' s.
  assert (Hlive : poll_live s) by (by apply poll_run_live, poll_effect_live).
  split.
  - intros Hm. unfold poll_live in Hlive. rewrite Hm in Hlive. tauto.
  - intros Hready.
    assert (Htick : poll_live (poll_step s tick)
                    ∧ script (poll_step s tick) = script_ready
                    ∧ polling (poll_step s tick) = false).
    { split; [by apply poll_step_live|].
      destruct s as [sc' pol n con]. simpl in *. subst sc'. by destruct pol. }
    destruct Htick as (Hl & Hr & Hp).
    change (poll_run s (tick :: evs')) with (poll_run (poll_step s tick) evs').
    generalize dependent (poll_step s tick). clear -Hnc'. intros s.
    revert s. induction evs' as [|ev evs' IH]; intros s Hl Hr Hp.
    + unfold poll_live in Hl. rewrite Hr, Hp in Hl. done.
    + change (poll_run s (ev :: evs')) with (poll_run (poll_step s ev) evs').
      assert (Hev : ev ≠ cleanup) by (intros ->; apply Hnc'; by left).
      apply IH.
      * intros Hin. apply Hnc'. by right.
      * by apply poll_step_live.
      * destruct s as [sc' pol n con]. simpl in *. subst. by destruct ev.
      * destruct s as [sc' pol n con]. simpl in *. subst. by destruct ev.
Qed.

(** The runtime becomes ready between two ticks, without a callback. *)
Lemma polling_starts_once_witness :
  runs (poll_run (poll_run (poll_effect (before_effect script_missing))
                    [tick; script_executed; script_runtime_initialized])
          [tick; tick]) = 1%nat.
Proof.
  apply (polling_starts_once script_missing
           [tick; script_executed; script_runtime_initialized] [tick]).
  - discriminate.
  - intros Hin. repeat (apply elem_of_cons in Hin as [Hin|Hin]; [discriminate|]).
    by apply elem_of_nil in Hin.
  - intros Hin. repeat (apply elem_of_cons in Hin as [Hin|Hin]; [discriminate|]).
    by apply elem_of_nil in Hin.
  - reflexivity.
Defined.
